(** * switch-exhaustiveness-check: a shallow embedding of the rule

    The rule lives in
    [packages/eslint-plugin/src/rules/switch-exhaustiveness-check.ts].
    It has two functions, [fixSwitch] and [checkSwitchExhaustive], closed
    over the parser services, the type checker, the compiler options, the
    source code and the option [requireDefaultForNonUnion].  The embedding
    keeps that shape: the closed-over capabilities are one record
    [Services], the two functions take it as their first arguments, and the
    effects of [checkSwitchExhaustive] (asking the checker for the type at a
    node, calling [context.report]) are threaded through a small state
    monad. *)

From Stdlib Require Import ZArith Ascii String.
From stdpp Require Import base option list sets gmap strings.

Local Open Scope string_scope.
Local Open Scope list_scope.

(** ** JavaScript string helpers used by the rule *)

(** [s.repeat(n)] *)
Fixpoint repeat_str (s : string) (n : nat) : string :=
  match n with
  | O => EmptyString
  | S n' => s +:+ repeat_str s n'
  end.

(** [s.replace(/c/g, by)]: every occurrence of the character [c] is
    replaced by the string [by]. *)
Fixpoint replace_all (c : ascii) (by_ : string) (s : string) : string :=
  match s with
  | EmptyString => EmptyString
  | String a s' =>
      if Ascii.eqb a c then by_ +:+ replace_all c by_ s'
      else String a (replace_all c by_ s')
  end.

(** [parts.join(sep)] *)
Fixpoint join (sep : string) (parts : list string) : string :=
  match parts with
  | [] => EmptyString
  | [p] => p
  | p :: rest => p +:+ sep +:+ join sep rest
  end.

(** [s.includes(c)] for a character [c] *)
Fixpoint occurs (c : ascii) (s : string) : bool :=
  match s with
  | EmptyString => false
  | String a s' => Ascii.eqb a c || occurs c s'
  end.

Definition quote_char : ascii := "'"%char.
Definition newline_char : ascii := "010"%char.
Definition return_char : ascii := "013"%char.
Definition backslash : string := String "\"%char EmptyString.
Definition newline : string := String newline_char EmptyString.

(** ** The type checker's objects *)

(** A [ts.Type] is an object of the compiler; the rule compares such
    objects by identity only (it puts them in a JavaScript [Set]).  A type
    is therefore a handle, and everything the rule asks about it is a query
    on [Services]. *)
Definition TsType := positive.
Bind Scope positive_scope with TsType.

(** A [ts.Symbol], of which the rule reads [escapedName]. *)
Record Symbol := { escapedName : string }.

(** [ts.TypeFlags.ESSymbolLike] = [ESSymbol | UniqueESSymbol]. *)
Definition ESSymbol : Z := 4096.
Definition UniqueESSymbol : Z := 8192.
Definition ESSymbolLike : Z := Z.lor ESSymbol UniqueESSymbol.

(** ** The syntax tree *)

(** An expression node is a handle as well: the rule passes it to the
    services and to [context.report], and never looks inside. *)
Definition Expression := positive.
Bind Scope positive_scope with Expression.

Record Position := { line : nat; column : nat }.
Record SourceLocation := { start : Position; finish : Position }.

Definition Range : Type := nat * nat.

Record SwitchCase := {
  test : option Expression;        (* [null] for the [default] clause *)
  case_loc : SourceLocation;
  case_range : Range
}.

Record SwitchStatement := {
  discriminant : Expression;
  cases : list SwitchCase;
  loc : SourceLocation
}.

Record Token := { token_range : Range }.

(** The two token predicates the rule hands to [sourceCode.getTokenAfter]. *)
Inductive TokenFilter := isOpeningBraceToken | isClosingBraceToken.

(** ** What the rule closes over *)

Record Services := {
  (** [getConstrainedTypeAtLocation(services, node)] *)
  typeAtLocation : Expression → TsType;
  (** [type.isUnion()], [type.isIntersection()], [type.flags] *)
  isUnion : TsType → bool;
  isIntersection : TsType → bool;
  flags : TsType → Z;
  (** [type.types] of a union type *)
  types : TsType → list TsType;
  (** [type.getSymbol()] *)
  getSymbol : TsType → option Symbol;
  (** [checker.typeToString(type)] *)
  typeToString : TsType → string;
  (** [requiresQuoting(name, target)] and [compilerOptions.target] *)
  target : option Z;
  requiresQuoting : string → option Z → bool;
  (** [sourceCode.getTokenAfter(node, filter)] *)
  getTokenAfter : Expression → TokenFilter → option Token
}.

(** [tsutils.isTypeFlagSet(type, flag)] *)
Definition isTypeFlagSet (sv : Services) (t : TsType) (flag : Z) : bool :=
  negb (Z.land (flags sv t) flag =? 0)%Z.

(** [tsutils.unionTypeParts(type)] *)
Definition unionTypeParts (sv : Services) (t : TsType) : list TsType :=
  if isUnion sv t then types sv t else [t].

(** ** Fixes and reports *)

(** The two fixer calls the rule makes. *)
Inductive RuleFix :=
  | insertTextAfter (nodeOrToken : SwitchCase) (text : string)
  | replaceTextRange (range : Range) (text : string).

Inductive MessageIds := switchIsNotExhaustive | addMissingCases.

(** A suggestion carries the closure [fix(fixer)]; [sug_fix] is what that
    closure returns when the host calls it, [None] when it throws. *)
Record Suggestion := {
  sug_messageId : MessageIds;
  sug_fix : option RuleFix
}.

Record ReportDescriptor := {
  rep_node : Expression;
  rep_messageId : MessageIds;
  missingBranches : string;        (* [data.missingBranches] *)
  suggest : list Suggestion
}.

(** [meta.messages], with the placeholder of [switchIsNotExhaustive]
    filled in. *)
Definition message (id : MessageIds) (data : string) : string :=
  match id with
  | switchIsNotExhaustive =>
      "Switch is not exhaustive. Cases not matched: " +:+ data
  | addMissingCases => "Add branches for missing cases."
  end.

(** ** The effects of a visit *)

Record RuleState := {
  resolved : list Expression;      (* nodes whose type was asked for *)
  reports : list ReportDescriptor  (* calls of [context.report] *)
}.

Definition Rule (A : Type) : Type := RuleState → A * RuleState.

Definition ret {A} (a : A) : Rule A := λ s, (a, s).

Definition bind {A B} (m : Rule A) (k : A → Rule B) : Rule B :=
  λ s, let '(a, s') := m s in k a s'.

Notation "'let*' x ':=' m 'in' k" := (bind m (λ x, k))
  (at level 10, x name, m at level 100, k at level 200, only parsing).

Definition initial : RuleState := {| resolved := []; reports := [] |}.

Section Rule.
Variable sv : Services.
Variable requireDefaultForNonUnion : bool.

Definition resolve (node : Expression) : Rule TsType :=
  λ s, (typeAtLocation sv node,
        {| resolved := resolved s ++ [node]; reports := reports s |}).

Definition report (d : ReportDescriptor) : Rule () :=
  λ s, ((), {| resolved := resolved s; reports := reports s ++ [d] |}).

(** *** fixSwitch *)

(** The three chained [replace] calls on the branch name. *)
Definition escapeBranchName (name : string) : string :=
  replace_all return_char (backslash +:+ "r")
    (replace_all newline_char (backslash +:+ "n")
       (replace_all quote_char (backslash +:+ "'") name)).

(** [caseTest]: the type's display string, or the bracket access on the
    discriminant's symbol.  [symbolName &&] holds for a defined, non-empty
    string; [(missingBranchName || missingBranchName === '')] for any
    defined string. *)
Definition caseTestOf (symbolName : option string) (t : TsType) : string :=
  let missingBranchName := escapedName <$> getSymbol sv t in
  match symbolName, missingBranchName with
  | Some sym, Some name =>
      if negb (String.eqb sym EmptyString) && requiresQuoting sv name (target sv)
      then sym +:+ "['" +:+ escapeBranchName name +:+ "']"
      else typeToString sv t
  | _, _ => typeToString sv t
  end.

Definition defaultClause : string :=
  "default: { throw new Error('default case') }".

Definition caseClause (symbolName : option string) (t : TsType) : string :=
  let caseTest := caseTestOf symbolName t in
  let errorMessage := "Not implemented yet: " +:+ caseTest +:+ " case" in
  let escapedErrorMessage :=
    replace_all quote_char (backslash +:+ "'") errorMessage in
  "case " +:+ caseTest +:+ ": { throw new Error('"
    +:+ escapedErrorMessage +:+ "') }".

(** The body of the [for] loop: what one missing branch type pushes on
    [missingCases]. *)
Fixpoint missingCasesOf (symbolName : option string)
    (missingBranchTypes : list (option TsType)) : list string :=
  match missingBranchTypes with
  | [] => []
  | None :: rest => defaultClause :: missingCasesOf symbolName rest
  | Some t :: rest =>
      if isIntersection sv t then missingCasesOf symbolName rest
      else caseClause symbolName t :: missingCasesOf symbolName rest
  end.

Definition fixSwitch (node : SwitchStatement)
    (missingBranchTypes : list (option TsType))
    (symbolName : option string) : option RuleFix :=
  let lastCase := last (cases node) in
  let caseIndent :=
    match lastCase with
    | Some c => repeat_str " " (column (start (case_loc c)))
    | None => repeat_str " " (column (start (loc node)))
    end in
  let missingCases := missingCasesOf symbolName missingBranchTypes in
  let fixString :=
    join newline (map (λ code, caseIndent +:+ code) missingCases) in
  match lastCase with
  | Some c => Some (insertTextAfter c (newline +:+ fixString))
  | None =>
      openingBrace ← getTokenAfter sv (discriminant node) isOpeningBraceToken;
      closingBrace ← getTokenAfter sv (discriminant node) isClosingBraceToken;
      Some (replaceTextRange
              (fst (token_range openingBrace), snd (token_range closingBrace))
              (join newline ["{"; fixString; caseIndent +:+ "}"]))
  end.

(** *** checkSwitchExhaustive *)

(** The loop over [node.cases] of the union path.  [None] is the [return]
    at the [default] clause; otherwise the loop ends with [caseTypes]. *)
Fixpoint collectCaseTypes (cs : list SwitchCase) (caseTypes : gset TsType)
    : Rule (option (gset TsType)) :=
  match cs with
  | [] => ret (Some caseTypes)
  | switchCase :: rest =>
      match test switchCase with
      | None => ret None
      | Some e =>
          let* t := resolve e in
          collectCaseTypes rest (caseTypes ∪ {[ t ]})
      end
  end.

(** How one missing type is shown in the message. *)
Definition renderMissing (missingType : TsType) : string :=
  if isTypeFlagSet sv missingType ESSymbolLike
  then "typeof " +:+
       match getSymbol sv missingType with
       | Some sym => escapedName sym
       | None => "undefined"
       end
  else typeToString sv missingType.

(** The report of the union path. *)
Definition reportMissingBranches (node : SwitchStatement)
    (missingBranchTypes : list TsType) (symbolName : option string)
    : ReportDescriptor :=
  {| rep_node := discriminant node;
     rep_messageId := switchIsNotExhaustive;
     missingBranches := join " | " (map renderMissing missingBranchTypes);
     suggest := [ {|
       sug_messageId := addMissingCases;
       sug_fix := fixSwitch node (map Some missingBranchTypes) symbolName
     |} ] |}.

(** The report of the non-union path. *)
Definition reportMissingDefault (node : SwitchStatement) : ReportDescriptor :=
  {| rep_node := discriminant node;
     rep_messageId := switchIsNotExhaustive;
     missingBranches := "default";
     suggest := [ {|
       sug_messageId := addMissingCases;
       sug_fix := fixSwitch node [None] None
     |} ] |}.

(** [node.cases.some(switchCase => switchCase.test == null)] *)
Definition hasDefault (cs : list SwitchCase) : bool :=
  existsb (λ switchCase, bool_decide (test switchCase = None)) cs.

Definition checkSwitchExhaustive (node : SwitchStatement) : Rule () :=
  let* discriminantType := resolve (discriminant node) in
  let symbolName := escapedName <$> getSymbol sv discriminantType in
  if isUnion sv discriminantType then
    let unionTypes := unionTypeParts sv discriminantType in
    let* seen := collectCaseTypes (cases node) ∅ in
    match seen with
    | None => ret ()
    | Some caseTypes =>
        let missingBranchTypes :=
          filter (λ unionType, unionType ∉ caseTypes) unionTypes in
        if (length missingBranchTypes =? 0)%nat then ret ()
        else report (reportMissingBranches node missingBranchTypes symbolName)
    end
  else if requireDefaultForNonUnion then
    if negb (hasDefault (cases node)) then report (reportMissingDefault node)
    else ret ()
  else ret ().

(** One visit of a [SwitchStatement], from a fresh state. *)
Definition visit (node : SwitchStatement) : RuleState :=
  snd (checkSwitchExhaustive node initial).

(** *** Notions the properties are stated with *)

(** The type of the discriminant and the name of its symbol. *)
Definition discriminantTypeOf (node : SwitchStatement) : TsType :=
  typeAtLocation sv (discriminant node).

Definition symbolNameOf (node : SwitchStatement) : option string :=
  escapedName <$> getSymbol sv (discriminantTypeOf node).

(** The tests the loop of the union path reaches: those of the clauses in
    front of the first [default] clause. *)
Fixpoint testsBeforeDefault (cs : list SwitchCase) : list Expression :=
  match cs with
  | [] => []
  | switchCase :: rest =>
      match test switchCase with
      | None => []
      | Some e => e :: testsBeforeDefault rest
      end
  end.

(** The set [caseTypes] at the end of that loop. *)
Definition coveredTypes (cs : list SwitchCase) : gset TsType :=
  list_to_set (typeAtLocation sv <$> testsBeforeDefault cs).

(** [missingBranchTypes], from the discriminant type and the clauses. *)
Definition missingBranchTypesOf (t : TsType) (cs : list SwitchCase)
    : list TsType :=
  filter (λ unionType, unionType ∉ coveredTypes cs) (unionTypeParts sv t).

(** A clause [c] handles the type [t]: it has a test, of type [t]. *)
Definition handles (c : SwitchCase) (t : TsType) : Prop :=
  ∃ e, test c = Some e ∧ typeAtLocation sv e = t.

End Rule.

(** ** A small program to run the rule on

    Types: [1] is the union of the three string literals [2], [3], [4];
    [5] is [string]; [10] is an enum [Enum] whose members are [11] (named
    [a-b], which needs quoting) and [12] (named [ok]); [20] is a union of
    the intersection type [21], the unique symbol type [22] (declared as
    [sym]) and the literal [2]; [30] is a union of the two intersection
    types [21] and [31].  Types [2] and [40] have the same display string
    and are different objects.  The expression [100 + t] has type [t]. *)

Definition dquote : string := String "034"%char EmptyString.

Definition demo_typeAtLocation (e : Expression) : TsType :=
  match e with
  | 101 => 1 | 102 => 2 | 103 => 3 | 104 => 4 | 105 => 5
  | 110 => 10 | 111 => 11 | 112 => 12
  | 120 => 20 | 121 => 21 | 122 => 22
  | 130 => 30 | 131 => 31 | 140 => 40
  | 202 => 2
  | _ => 5
  end%positive.

Definition demo_isUnion (t : TsType) : bool :=
  match t with
  | 1 | 10 | 20 | 30 => true
  | _ => false
  end%positive.

Definition demo_isIntersection (t : TsType) : bool :=
  match t with
  | 21 | 31 => true
  | _ => false
  end%positive.

Definition demo_flags (t : TsType) : Z :=
  match t with
  | (1 | 10 | 20 | 30)%positive => 1048576%Z
  | (2 | 3 | 4 | 40)%positive => 128%Z
  | 5%positive => 4%Z
  | (11 | 12)%positive => 1024%Z
  | (21 | 31)%positive => 2097152%Z
  | 22%positive => 8192%Z
  | _ => 1%Z
  end.

Definition demo_types (t : TsType) : list TsType :=
  match t with
  | 1 => [2; 3; 4]
  | 10 => [11; 12]
  | 20 => [21; 22; 2]
  | 30 => [21; 31]
  | _ => []
  end%positive.

Definition demo_getSymbol (t : TsType) : option Symbol :=
  match t with
  | 10 => Some {| escapedName := "Enum" |}
  | 11 => Some {| escapedName := "a-b" |}
  | 12 => Some {| escapedName := "ok" |}
  | 22 => Some {| escapedName := "sym" |}
  | _ => None
  end%positive.

Definition demo_typeToString (t : TsType) : string :=
  match t with
  | 1 => "Letters"
  | 2 | 40 => dquote +:+ "a" +:+ dquote
  | 3 => dquote +:+ "b" +:+ dquote
  | 4 => dquote +:+ "c" +:+ dquote
  | 5 => "string"
  | 10 => "Enum"
  | 11 => "Enum.a-b"
  | 12 => "Enum.ok"
  | 20 => "Mixed"
  | 21 => "string & Brand"
  | 22 => "unique symbol"
  | 30 => "Branded"
  | 31 => "void & Brand"
  | _ => "any"
  end%positive.

(** A name needs quoting here when it has a character that is no letter. *)
Fixpoint has_non_letter (s : string) : bool :=
  match s with
  | EmptyString => false
  | String a s' =>
      let n := nat_of_ascii a in
      negb ((65 <=? n)%nat && (n <=? 90)%nat || (97 <=? n)%nat && (n <=? 122)%nat)
      || has_non_letter s'
  end.

Definition demo_requiresQuoting (name : string) (_ : option Z) : bool :=
  String.eqb name EmptyString || has_non_letter name.

Definition demo_getTokenAfter (_ : Expression) (f : TokenFilter)
    : option Token :=
  match f with
  | isOpeningBraceToken => Some {| token_range := (11, 12)%nat |}
  | isClosingBraceToken => Some {| token_range := (13, 14)%nat |}
  end.

Definition demo : Services := {|
  typeAtLocation := demo_typeAtLocation;
  isUnion := demo_isUnion;
  isIntersection := demo_isIntersection;
  flags := demo_flags;
  types := demo_types;
  getSymbol := demo_getSymbol;
  typeToString := demo_typeToString;
  target := None;
  requiresQuoting := demo_requiresQuoting;
  getTokenAfter := demo_getTokenAfter
|}.

Definition at_column (c : nat) : SourceLocation :=
  {| start := {| line := 1; column := c |};
     finish := {| line := 1; column := c |} |}.

(** [case e: ...] at column [c]; [default: ...] at column [c]. *)
Definition case_of (e : Expression) (c : nat) : SwitchCase :=
  {| test := Some e; case_loc := at_column c; case_range := (0, 0)%nat |}.

Definition default_at (c : nat) : SwitchCase :=
  {| test := None; case_loc := at_column c; case_range := (0, 0)%nat |}.

Definition switch_on (e : Expression) (cs : list SwitchCase) : SwitchStatement :=
  {| discriminant := e; cases := cs; loc := at_column 2 |}.


(** Switch statements over that program: on the three literals with clauses
    for the first two; the same with all three; on [string] with one
    clause; on the enum without clauses; on the literals with a [default]
    clause between two others; on the union with an intersection type and a
    unique symbol; on the union of intersection types. *)
Definition switch_two_of_three : SwitchStatement :=
  switch_on 101 [case_of 102 4; case_of 103 4].

Definition switch_all_three : SwitchStatement :=
  switch_on 101 [case_of 102 4; case_of 103 4; case_of 104 4].

Definition switch_on_string : SwitchStatement :=
  switch_on 105 [case_of 102 3].

Definition switch_empty_enum : SwitchStatement := switch_on 110 [].

Definition switch_with_default : SwitchStatement :=
  switch_on 101 [case_of 102 4; default_at 4; case_of 103 4].

Definition switch_on_mixed : SwitchStatement :=
  switch_on 120 [case_of 112 3].

Definition switch_on_branded : SwitchStatement :=
  switch_on 130 [case_of 112 3].

(** The same switch statement with other clauses. *)
Definition with_cases (node : SwitchStatement) (cs : list SwitchCase)
    : SwitchStatement :=
  {| discriminant := discriminant node; cases := cs; loc := loc node |}.

(** ** A second program

    The first program with two more unions.  Type [9] is
    [type T = "a" | "b"]: the checker holds its members as [3], [2], the
    string literal [b] in front of [a].  Type [51] is the union of [50],
    the type [symbol], with the literal [2]; [50] has the flag [ESSymbol]
    and, being no declared thing, no symbol.  The expressions [109] and
    [151] have the types [9] and [51]. *)

Definition demo2_typeAtLocation (e : Expression) : TsType :=
  match e with
  | 109 => 9 | 151 => 51
  | _ => demo_typeAtLocation e
  end%positive.

Definition demo2_isUnion (t : TsType) : bool :=
  match t with
  | 9 | 51 => true
  | _ => demo_isUnion t
  end%positive.

Definition demo2_flags (t : TsType) : Z :=
  match t with
  | (9 | 51)%positive => 1048576%Z
  | 50%positive => ESSymbol
  | _ => demo_flags t
  end.

Definition demo2_types (t : TsType) : list TsType :=
  match t with
  | 9 => [3; 2]
  | 51 => [50; 2]
  | _ => demo_types t
  end%positive.

Definition demo2_typeToString (t : TsType) : string :=
  match t with
  | 9 => "T"
  | 50 => "symbol"
  | 51 => "symbol | " +:+ dquote +:+ "a" +:+ dquote
  | _ => demo_typeToString t
  end%positive.

Definition demo2 : Services := {|
  typeAtLocation := demo2_typeAtLocation;
  isUnion := demo2_isUnion;
  isIntersection := demo_isIntersection;
  flags := demo2_flags;
  types := demo2_types;
  getSymbol := demo_getSymbol;
  typeToString := demo2_typeToString;
  target := None;
  requiresQuoting := demo_requiresQuoting;
  getTokenAfter := demo_getTokenAfter
|}.

(** Modelled from the spec: the declaration order of a union, which is the
    order in which the declaration of the union writes its members.  The
    rule has no access to it: it only sees the members as the checker
    holds them.  For [type T = "a" | "b"] of the second program it is
    [a], then [b]. *)
Definition declaration_order (t : TsType) : list TsType :=
  match t with
  | 9 => [2; 3]
  | _ => []
  end%positive.

(** Switch statements over the second program: on [T] without clauses, and
    on the union with [symbol], with a clause for the literal. *)
Definition switch_on_T : SwitchStatement := switch_on 109 [].

Definition switch_on_symbol_or_a : SwitchStatement :=
  switch_on 151 [case_of 102 4].

(** ** The listener

    [create] returns [{ SwitchStatement: checkSwitchExhaustive }]: the host
    calls the function on the switch statements of a file, one after the
    other, with the same [context]. *)
Fixpoint checkAll (sv : Services) (requireDefaultForNonUnion : bool)
    (nodes : list SwitchStatement) : Rule () :=
  match nodes with
  | [] => ret ()
  | node :: rest =>
      bind (checkSwitchExhaustive sv requireDefaultForNonUnion node)
           (λ _, checkAll sv requireDefaultForNonUnion rest)
  end.

(** ** Reading the generated text *)

Definition backslash_char : ascii := "\"%char.

(** Every single quote of [s] has a backslash right in front of it;
    [after_backslash] tells whether the character in front of [s] is one. *)
Fixpoint quotes_escaped_after (after_backslash : bool) (s : string) : bool :=
  match s with
  | EmptyString => true
  | String a s' =>
      (negb (Ascii.eqb a quote_char) || after_backslash)
      && quotes_escaped_after (Ascii.eqb a backslash_char) s'
  end.

Definition quotes_escaped (s : string) : bool :=
  quotes_escaped_after false s.

(** [s.startsWith(p)] *)
Fixpoint starts_with (p s : string) : bool :=
  match p, s with
  | EmptyString, _ => true
  | String a p', String b s' => Ascii.eqb a b && starts_with p' s'
  | String _ _, EmptyString => false
  end.

(** * no-require-imports

    The rule of [packages/eslint-plugin/src/rules/no-require-imports.ts]
    has two listeners.  The first is called on the call expressions whose
    callee is the identifier [require], the second on the
    [TSExternalModuleReference] nodes. *)
Module NoRequireImports.

Inductive MessageIds := noRequireImports.

(** A variable of the scope analysis, of which the rule reads
    [identifiers], the identifier nodes that declare it. *)
Record ScopeVariable := { identifiers : list Expression }.

Record ReportDescriptor := { node : Expression; messageId : MessageIds }.

(** What a listener is called with: the node, and for a call of [require]
    what [ASTUtils.findVariable(getScope(context), name)] finds from
    there. *)
Inductive Visited :=
  | RequireCall (n : Expression) (findVariable : string → option ScopeVariable)
  | ExternalModuleReference (n : Expression).

(** ['CallExpression[callee.name=require]'(node)]: [!variable?.identifiers.length]
    holds when no variable is found and when the variable found has no
    identifiers. *)
Definition onRequireCall (n : Expression)
    (findVariable : string → option ScopeVariable) : list ReportDescriptor :=
  let variable := findVariable "require" in
  match variable with
  | None => [ {| node := n; messageId := noRequireImports |} ]
  | Some v =>
      if (length (identifiers v) =? 0)%nat
      then [ {| node := n; messageId := noRequireImports |} ]
      else []
  end.

(** [TSExternalModuleReference(node)] *)
Definition onExternalModuleReference (n : Expression) : list ReportDescriptor :=
  [ {| node := n; messageId := noRequireImports |} ].

Definition listener (v : Visited) : list ReportDescriptor :=
  match v with
  | RequireCall n findVariable => onRequireCall n findVariable
  | ExternalModuleReference n => onExternalModuleReference n
  end.

(** The reports of a traversal that meets the nodes [vs] in this order. *)
Definition lint (vs : list Visited) : list ReportDescriptor :=
  concat (map listener vs).

(** The node a listener is called on. *)
Definition visited_node (v : Visited) : Expression :=
  match v with
  | RequireCall n _ => n
  | ExternalModuleReference n => n
  end.

(** A call of [require] where [require] is a variable of the program: one
    with an identifier that declares it. *)
Definition user_land (v : Visited) : Prop :=
  match v with
  | RequireCall _ findVariable =>
      ∃ var, findVariable "require" = Some var ∧ identifiers var ≠ []
  | ExternalModuleReference _ => False
  end.

(** Two scopes to run the rule in: the global one, where [require] is a
    variable without declaring identifier, and one where the program
    declares [require] at node [7]. *)
Definition global_scope (name : string) : option ScopeVariable :=
  if String.eqb name "require" then Some {| identifiers := [] |} else None.

Definition shadowing_scope (name : string) : option ScopeVariable :=
  if String.eqb name "require"
  then Some {| identifiers := [7%positive] |} else None.

End NoRequireImports.

(** * Properties *)

Section Properties.
Context (sv : Services).
Implicit Types (node : SwitchStatement) (cs : list SwitchCase).
Implicit Types (c : SwitchCase) (t : TsType) (s : RuleState).

(** ** The [default] clause *)

Lemma hasDefault_true cs :
  hasDefault cs = true ↔ ∃ c, c ∈ cs ∧ test c = None.
Proof.
  unfold hasDefault. rewrite existsb_exists. split.
  - intros (c & Hin & Hc). exists c. split.
    + by apply list_elem_of_In.
    + by apply bool_decide_eq_true in Hc.
  - intros (c & Hin & Hc). exists c. split.
    + by apply list_elem_of_In.
    + by apply bool_decide_eq_true.
Qed.

Lemma hasDefault_false cs :
  hasDefault cs = false ↔ ∀ c, c ∈ cs → test c ≠ None.
Proof.
  rewrite <- not_true_iff_false, hasDefault_true. split.
  - intros Hno c Hin Hc. apply Hno. eauto.
  - intros Hall (c & Hin & Hc). by apply (Hall c).
Qed.

Lemma hasDefault_cons c cs :
  hasDefault (c :: cs) =
  match test c with None => true | Some _ => hasDefault cs end.
Proof. unfold hasDefault. simpl. by destruct (test c). Qed.

(** ** The loop of the union path *)

Lemma coveredTypes_cons c e cs :
  test c = Some e →
  coveredTypes sv (c :: cs) = {[ typeAtLocation sv e ]} ∪ coveredTypes sv cs.
Proof. intros Hc. unfold coveredTypes. simpl. by rewrite Hc. Qed.

(** The loop returns at the first [default] clause, and otherwise ends with
    the types of all tests added to [caseTypes]; either way it has asked
    for the types of the tests in front of the first [default] clause, and
    of no other node. *)
Lemma collectCaseTypes_run cs (caseTypes : gset TsType) s :
  collectCaseTypes sv cs caseTypes s =
  (if hasDefault cs then None else Some (caseTypes ∪ coveredTypes sv cs),
   {| resolved := resolved s ++ testsBeforeDefault cs;
      reports := reports s |}).
Proof.
  revert caseTypes s. induction cs as [|c cs IH]; intros caseTypes s.
  - cbn. unfold ret, coveredTypes. cbn.
    rewrite (right_id_L ∅ (∪)), app_nil_r. by destruct s.
  - rewrite hasDefault_cons. cbn [collectCaseTypes testsBeforeDefault].
    destruct (test c) as [e|] eqn:Hc.
    + rewrite (coveredTypes_cons c e cs Hc).
      unfold bind, resolve. rewrite IH. cbn [resolved reports].
      rewrite (assoc_L (∪)), <- (assoc_L (++)). done.
    + unfold ret. rewrite app_nil_r. by destruct s.
Qed.

Lemma elem_of_coveredTypes cs t :
  hasDefault cs = false →
  t ∈ coveredTypes sv cs ↔ ∃ c, c ∈ cs ∧ handles sv c t.
Proof.
  induction cs as [|c cs IH].
  - intros _. unfold coveredTypes. cbn. split.
    + intros H. by apply not_elem_of_empty in H.
    + intros (c & Hin & _). by apply not_elem_of_nil in Hin.
  - rewrite hasDefault_cons. destruct (test c) as [e|] eqn:Hc; [|done].
    intros Hcs. rewrite (coveredTypes_cons c e cs Hc).
    rewrite elem_of_union, elem_of_singleton, (IH Hcs). split.
    + intros [->|(c' & Hin & Hh)].
      * exists c. split; [left|]. by exists e.
      * exists c'. split; [by right|done].
    + intros (c' & Hin & Hh). apply elem_of_cons in Hin as [->|Hin].
      * left. destruct Hh as (e' & He' & <-). congruence.
      * right. eauto.
Qed.

Lemma testsBeforeDefault_no_default cs :
  hasDefault cs = false → testsBeforeDefault cs = omap test cs.
Proof.
  induction cs as [|c cs IH]; [done|].
  rewrite hasDefault_cons. cbn. destruct (test c); [|done].
  intros H. by rewrite (IH H).
Qed.

Lemma testsBeforeDefault_at_default pre d rest :
  hasDefault pre = false → test d = None →
  testsBeforeDefault (pre ++ d :: rest) = omap test pre.
Proof.
  intros Hpre Hd. induction pre as [|c pre IH].
  - cbn. by rewrite Hd.
  - rewrite hasDefault_cons in Hpre. cbn.
    destruct (test c); [|done]. by rewrite (IH Hpre).
Qed.

(** ** What one visit does, path by path *)

Lemma visit_union_default r node :
  isUnion sv (discriminantTypeOf sv node) = true →
  hasDefault (cases node) = true →
  visit sv r node =
  {| resolved := discriminant node :: testsBeforeDefault (cases node);
     reports := [] |}.
Proof.
  intros Hu Hd. unfold visit, checkSwitchExhaustive, bind, resolve.
  unfold discriminantTypeOf in Hu. rewrite Hu.
  rewrite collectCaseTypes_run, Hd. done.
Qed.

Lemma visit_union r node :
  isUnion sv (discriminantTypeOf sv node) = true →
  hasDefault (cases node) = false →
  visit sv r node =
  {| resolved := discriminant node :: testsBeforeDefault (cases node);
     reports :=
       let missing :=
         missingBranchTypesOf sv (discriminantTypeOf sv node) (cases node) in
       match missing with
       | [] => []
       | _ :: _ =>
           [reportMissingBranches sv node missing (symbolNameOf sv node)]
       end |}.
Proof.
  intros Hu Hd. unfold visit, checkSwitchExhaustive, bind, resolve.
  unfold discriminantTypeOf in *. rewrite Hu.
  rewrite collectCaseTypes_run, Hd. rewrite (left_id_L ∅ (∪)).
  unfold missingBranchTypesOf, symbolNameOf, discriminantTypeOf.
  by destruct (filter _ _).
Qed.

Lemma visit_non_union r node :
  isUnion sv (discriminantTypeOf sv node) = false →
  visit sv r node =
  {| resolved := [discriminant node];
     reports :=
       if r && negb (hasDefault (cases node))
       then [reportMissingDefault sv node] else [] |}.
Proof.
  intros Hu. unfold visit, checkSwitchExhaustive, bind, resolve.
  unfold discriminantTypeOf in Hu. rewrite Hu.
  destruct r; [|done]. cbn. by destruct (hasDefault (cases node)).
Qed.

(** A visit adds to the state it starts from what it does from a fresh
    one: nothing of the state is read. *)
Lemma checkSwitchExhaustive_frame r node s :
  checkSwitchExhaustive sv r node s =
  ((), {| resolved := resolved s ++ resolved (visit sv r node);
          reports := reports s ++ reports (visit sv r node) |}).
Proof.
  destruct (isUnion sv (discriminantTypeOf sv node)) eqn:Hu.
  - destruct (hasDefault (cases node)) eqn:Hd.
    + rewrite (visit_union_default r node Hu Hd).
      unfold checkSwitchExhaustive, bind, resolve.
      unfold discriminantTypeOf in Hu. rewrite Hu.
      rewrite collectCaseTypes_run, Hd. cbn.
      by rewrite app_nil_r, <- (assoc_L (++)).
    + rewrite (visit_union r node Hu Hd).
      unfold checkSwitchExhaustive, bind, resolve.
      unfold discriminantTypeOf in Hu. rewrite Hu.
      rewrite collectCaseTypes_run, Hd, (left_id_L ∅ (∪)). cbn.
      unfold missingBranchTypesOf, symbolNameOf, discriminantTypeOf.
      destruct (filter _ _); cbn;
        by rewrite ?app_nil_r, <- (assoc_L (++)).
  - rewrite (visit_non_union r node Hu).
    unfold checkSwitchExhaustive, bind, resolve.
    unfold discriminantTypeOf in Hu. rewrite Hu.
    destruct r; cbn; [|by rewrite app_nil_r].
    destruct (hasDefault (cases node)); cbn; by rewrite ?app_nil_r.
Qed.

(** ** Membership in the missing list *)

Lemma elem_of_missingBranchTypesOf t0 cs t :
  hasDefault cs = false →
  t ∈ missingBranchTypesOf sv t0 cs ↔
  t ∈ unionTypeParts sv t0 ∧ ¬ ∃ c, c ∈ cs ∧ handles sv c t.
Proof.
  intros Hd. unfold missingBranchTypesOf.
  rewrite list_elem_of_filter, (elem_of_coveredTypes cs t Hd). tauto.
Qed.

Lemma missingBranchTypesOf_nil t0 cs :
  hasDefault cs = false →
  missingBranchTypesOf sv t0 cs = [] ↔
  ∀ t, t ∈ unionTypeParts sv t0 → ∃ c, c ∈ cs ∧ handles sv c t.
Proof.
  intros Hd. split.
  - intros Hnil t Hin.
    destruct (decide (t ∈ coveredTypes sv cs)) as [Hc|Hc].
    + by apply (elem_of_coveredTypes cs t Hd).
    + exfalso. by apply (filter_nil_not_elem_of _ _ t Hnil Hc).
  - intros Hall. apply elem_of_nil_inv. intros t.
    rewrite (elem_of_missingBranchTypesOf t0 cs t Hd).
    intros [Hin Hno]. apply Hno. by apply Hall.
Qed.

Lemma missingBranchTypesOf_sublist t0 cs :
  sublist (missingBranchTypesOf sv t0 cs) (unionTypeParts sv t0).
Proof. apply sublist_filter. Qed.

(** C1: a switch on a union type without [default] clause is reported
    exactly when some member of the union is handled by no clause; the
    report is the one built from the missing list, and a type is on the
    missing list exactly when it is a member of the union that no clause
    handles. *)
Theorem union_exhaustive_iff_all_handled r node :
  isUnion sv (discriminantTypeOf sv node) = true →
  hasDefault (cases node) = false →
  let all := unionTypeParts sv (discriminantTypeOf sv node) in
  let missing :=
    missingBranchTypesOf sv (discriminantTypeOf sv node) (cases node) in
  (reports (visit sv r node) = [] ↔
     ∀ t, t ∈ all → ∃ c, c ∈ cases node ∧ handles sv c t)
  ∧ (reports (visit sv r node) ≠ [] →
     reports (visit sv r node) =
       [reportMissingBranches sv node missing (symbolNameOf sv node)])
  ∧ (∀ t, t ∈ missing ↔
       t ∈ all ∧ ¬ ∃ c, c ∈ cases node ∧ handles sv c t).
Proof.
  intros Hu Hd all missing. subst all.
  rewrite (visit_union r node Hu Hd). cbn. fold missing. split; [|split].
  - rewrite <- (missingBranchTypesOf_nil _ _ Hd). fold missing.
    by destruct missing.
  - by destruct missing.
  - intros t. by apply elem_of_missingBranchTypesOf.
Qed.

(** C2: a switch with a [default] clause is never reported, whatever the
    type of its discriminant, the option and its other clauses; on a union
    type the loop stops at the first [default] clause: the only nodes whose
    type is asked for are the discriminant and the tests in front of it. *)
Theorem default_clause_never_reported r node :
  (∃ c, c ∈ cases node ∧ test c = None) →
  reports (visit sv r node) = []
  ∧ (isUnion sv (discriminantTypeOf sv node) = true →
     ∀ pre d rest,
       cases node = pre ++ d :: rest →
       hasDefault pre = false → test d = None →
       resolved (visit sv r node) = discriminant node :: omap test pre).
Proof.
  intros Hd. apply hasDefault_true in Hd.
  destruct (isUnion sv (discriminantTypeOf sv node)) eqn:Hu.
  - rewrite (visit_union_default r node Hu Hd). split; [done|].
    intros _ pre d rest Hcs Hpre Htest. cbn. rewrite Hcs.
    by rewrite (testsBeforeDefault_at_default pre d rest Hpre Htest).
  - rewrite (visit_non_union r node Hu), Hd. split; [|done].
    by destruct r.
Qed.

Lemma hasDefault_Permutation cs cs' :
  cs ≡ₚ cs' → hasDefault cs = hasDefault cs'.
Proof.
  intros Hp. destruct (hasDefault cs') eqn:Hd'.
  - apply hasDefault_true. apply hasDefault_true in Hd' as (c & Hin & Hc).
    exists c. by rewrite Hp.
  - apply hasDefault_false. intros c Hin.
    apply (proj1 (hasDefault_false cs') Hd'). by rewrite <- Hp.
Qed.

Lemma coveredTypes_Permutation cs cs' :
  hasDefault cs = false → cs ≡ₚ cs' →
  coveredTypes sv cs = coveredTypes sv cs'.
Proof.
  intros Hd Hp. apply set_eq. intros t.
  rewrite (elem_of_coveredTypes cs t Hd).
  rewrite (elem_of_coveredTypes cs' t);
    [|by rewrite <- (hasDefault_Permutation cs cs' Hp)].
  split; intros (c & Hin & Hh); exists c; split; try done.
  - by rewrite <- Hp.
  - by rewrite Hp.
Qed.

(** C3, as the code has it: the missing list keeps the order in which the
    checker holds the members of the union ([type.types], through
    [unionTypeParts]), and does not depend on the order of the clauses: two
    switch statements on the same discriminant whose clauses are a
    permutation of each other are reported with the same missing list. *)
Theorem missing_order_is_union_order r node node' :
  isUnion sv (discriminantTypeOf sv node) = true →
  hasDefault (cases node) = false →
  discriminant node' = discriminant node →
  cases node' ≡ₚ cases node →
  let all := unionTypeParts sv (discriminantTypeOf sv node) in
  let missing :=
    missingBranchTypesOf sv (discriminantTypeOf sv node) (cases node) in
  let reported n :=
    match missing with
    | [] => []
    | _ :: _ => [reportMissingBranches sv n missing (symbolNameOf sv node)]
    end in
  sublist missing all
  ∧ reports (visit sv r node) = reported node
  ∧ reports (visit sv r node') = reported node'.
Proof.
  intros Hu Hd Hdisc Hp all missing reported.
  assert (Hd' : hasDefault (cases node') = false)
    by by rewrite (hasDefault_Permutation _ _ Hp).
  assert (HT : discriminantTypeOf sv node' = discriminantTypeOf sv node)
    by (unfold discriminantTypeOf; by rewrite Hdisc).
  split; [apply missingBranchTypesOf_sublist|]. split.
  - by rewrite (visit_union r node Hu Hd).
  - rewrite (visit_union r node'); [|by rewrite HT|done]. cbn.
    unfold symbolNameOf, missingBranchTypesOf. rewrite HT.
    by rewrite (coveredTypes_Permutation _ _ Hd' Hp).
Qed.

(** ** Adding a clause *)

Lemma hasDefault_without cs1 c cs2 :
  hasDefault (cs1 ++ c :: cs2) = false → hasDefault (cs1 ++ cs2) = false.
Proof.
  rewrite !hasDefault_false. intros Hall c' Hin. apply Hall.
  rewrite elem_of_app in Hin. rewrite elem_of_app, elem_of_cons. tauto.
Qed.

Lemma handles_functional c t u : handles sv c t → handles sv c u → t = u.
Proof. intros (e & He & <-) (e' & He' & <-). congruence. Qed.

(** Adding a clause adds the type of its test to [caseTypes], and nothing
    else. *)
Lemma elem_of_coveredTypes_insert cs1 c cs2 t u :
  hasDefault (cs1 ++ c :: cs2) = false → handles sv c t →
  u ∈ coveredTypes sv (cs1 ++ c :: cs2) ↔
  u = t ∨ u ∈ coveredTypes sv (cs1 ++ cs2).
Proof.
  intros Hd Hc.
  rewrite (elem_of_coveredTypes _ u Hd).
  rewrite (elem_of_coveredTypes _ u (hasDefault_without _ _ _ Hd)). split.
  - intros (c' & Hin & Hh).
    rewrite elem_of_app, elem_of_cons in Hin.
    destruct Hin as [Hin|[->|Hin]].
    + right. exists c'. rewrite elem_of_app. tauto.
    + left. by apply (handles_functional c).
    + right. exists c'. rewrite elem_of_app. tauto.
  - intros [->|(c' & Hin & Hh)].
    + exists c. rewrite elem_of_app, elem_of_cons. tauto.
    + exists c'. rewrite elem_of_app in Hin.
      rewrite elem_of_app, elem_of_cons. tauto.
Qed.

Lemma missingBranchTypesOf_insert t0 cs1 c cs2 t :
  hasDefault (cs1 ++ c :: cs2) = false → handles sv c t →
  missingBranchTypesOf sv t0 (cs1 ++ c :: cs2) =
  filter (λ u, u ≠ t) (missingBranchTypesOf sv t0 (cs1 ++ cs2)).
Proof.
  intros Hd Hc. unfold missingBranchTypesOf.
  rewrite list_filter_filter. apply list_filter_iff. intros u.
  rewrite (elem_of_coveredTypes_insert cs1 c cs2 t u Hd Hc). tauto.
Qed.

Lemma filter_ne_id (l : list TsType) t : t ∉ l → filter (λ u, u ≠ t) l = l.
Proof.
  induction l as [|u l IH]; [done|].
  rewrite not_elem_of_cons. intros [Hne Hnin].
  rewrite filter_cons_True by done. by rewrite IH.
Qed.

(** C4: a clause whose test has the type [t] takes exactly the object [t]
    off the missing list, whatever the display strings are; so a second
    clause for a type that is handled already, put anywhere among the
    clauses, changes neither [caseTypes] nor the missing list nor what is
    reported as missing. *)
Theorem duplicate_clause_keeps_missing r node cs1 c cs2 t :
  isUnion sv (discriminantTypeOf sv node) = true →
  hasDefault (cs1 ++ c :: cs2) = false →
  handles sv c t →
  let missing :=
    missingBranchTypesOf sv (discriminantTypeOf sv node) (cs1 ++ cs2) in
  let missing' :=
    missingBranchTypesOf sv (discriminantTypeOf sv node) (cs1 ++ c :: cs2) in
  let node' := with_cases node (cs1 ++ c :: cs2) in
  missing' = filter (λ u, u ≠ t) missing
  ∧ (∀ u, u ∈ missing → u ≠ t → u ∈ missing')
  ∧ ((∃ c', c' ∈ cs1 ++ cs2 ∧ handles sv c' t) →
     coveredTypes sv (cs1 ++ c :: cs2) = coveredTypes sv (cs1 ++ cs2)
     ∧ missing' = missing
     ∧ reports (visit sv r node') =
       match missing with
       | [] => []
       | _ :: _ =>
           [reportMissingBranches sv node' missing (symbolNameOf sv node)]
       end).
Proof.
  intros Hu Hd Hc missing missing' node'.
  assert (Hins : missing' = filter (λ u, u ≠ t) missing)
    by by apply missingBranchTypesOf_insert.
  split; [done|]. split.
  - intros u Hin Hne. rewrite Hins. by apply list_elem_of_filter.
  - intros Hdup.
    assert (Hd0 := hasDefault_without _ _ _ Hd).
    assert (Hcov : t ∈ coveredTypes sv (cs1 ++ cs2))
      by by apply elem_of_coveredTypes.
    assert (Hsame : missing' = missing).
    { rewrite Hins. apply filter_ne_id. unfold missing.
      rewrite (elem_of_missingBranchTypesOf _ _ t Hd0). tauto. }
    split; [|split; [done|]].
    + apply set_eq. intros u.
      rewrite (elem_of_coveredTypes_insert cs1 c cs2 t u Hd Hc).
      split; [intros [->|]; done|tauto].
    + rewrite (visit_union r node' Hu Hd). cbn.
      change (missingBranchTypesOf sv (discriminantTypeOf sv node')
                (cs1 ++ c :: cs2)) with missing'.
      by rewrite Hsame.
Qed.

(** ** The generated clauses *)

Lemma missingCasesOf_types symbolName (missing : list TsType) :
  missingCasesOf sv symbolName (map Some missing) =
  map (caseClause sv symbolName)
      (filter (λ t, isIntersection sv t = false) missing).
Proof.
  induction missing as [|t missing IH]; [done|].
  cbn [map missingCasesOf]. destruct (isIntersection sv t) eqn:Ht.
  - rewrite filter_cons_False by congruence. done.
  - rewrite filter_cons_True by done. cbn [map]. by rewrite IH.
Qed.

Lemma missingCasesOf_skips symbolName (missing : list TsType) :
  missingCasesOf sv symbolName (map Some missing) =
  missingCasesOf sv symbolName
    (map Some (filter (λ t, isIntersection sv t = false) missing)).
Proof.
  rewrite !missingCasesOf_types. by rewrite list_filter_filter_l.
Qed.

Lemma fixSwitch_clauses node missing1 missing2 symbolName :
  missingCasesOf sv symbolName missing1 = missingCasesOf sv symbolName missing2 →
  fixSwitch sv node missing1 symbolName = fixSwitch sv node missing2 symbolName.
Proof. intros H. unfold fixSwitch. by rewrite H. Qed.

(** ** Appending strings *)

Lemma append_cons x (a b : string) : String x a +:+ b = String x (a +:+ b).
Proof. reflexivity. Qed.

Lemma append_assoc (a b c : string) : (a +:+ b) +:+ c = a +:+ (b +:+ c).
Proof.
  induction a as [|x a IH]; [done|]. rewrite !append_cons. by f_equal.
Qed.

(** ** The non-union path *)

Lemma fixSwitch_default_after_last node lastCase :
  last (cases node) = Some lastCase →
  fixSwitch sv node [None] None =
  Some (insertTextAfter lastCase
          (newline +:+ repeat_str " " (column (start (case_loc lastCase)))
             +:+ "default: { throw new Error('default case') }")).
Proof. intros Hl. unfold fixSwitch. rewrite Hl. done. Qed.

(** C5: on a discriminant that is no union, nothing is reported while the
    option is off; with the option on, the switch is reported exactly when
    none of its clauses is a [default] clause; the report then names
    [default] as what is missing, and its fix adds the clause
    [default: { throw new Error('default case') }]. *)
Theorem non_union_requires_default node :
  isUnion sv (discriminantTypeOf sv node) = false →
  reports (visit sv false node) = []
  ∧ (reports (visit sv true node) ≠ [] ↔
       ∀ c, c ∈ cases node → test c ≠ None)
  ∧ ((∀ c, c ∈ cases node → test c ≠ None) →
     reports (visit sv true node) =
       [ {| rep_node := discriminant node;
            rep_messageId := switchIsNotExhaustive;
            missingBranches := "default";
            suggest := [ {| sug_messageId := addMissingCases;
                            sug_fix := fixSwitch sv node [None] None |} ] |} ])
  ∧ missingCasesOf sv None [None] =
      ["default: { throw new Error('default case') }"]
  ∧ (∀ lastCase, last (cases node) = Some lastCase →
     fixSwitch sv node [None] None =
     Some (insertTextAfter lastCase
             (newline +:+ repeat_str " " (column (start (case_loc lastCase)))
                +:+ "default: { throw new Error('default case') }")))
  ∧ (cases node = [] →
     ∀ openingBrace closingBrace,
       getTokenAfter sv (discriminant node) isOpeningBraceToken
         = Some openingBrace →
       getTokenAfter sv (discriminant node) isClosingBraceToken
         = Some closingBrace →
       fixSwitch sv node [None] None =
       Some (replaceTextRange
               (fst (token_range openingBrace), snd (token_range closingBrace))
               ("{" +:+ newline +:+
                repeat_str " " (column (start (loc node)))
                +:+ "default: { throw new Error('default case') }"
                +:+ newline +:+
                repeat_str " " (column (start (loc node))) +:+ "}"))).
Proof.
  intros Hu. rewrite !(visit_non_union _ node Hu). cbn [reports andb].
  rewrite <- hasDefault_false.
  split; [done|]. split; [|split; [|split; [done|split]]].
  - by destruct (hasDefault (cases node)).
  - intros ->. done.
  - apply fixSwitch_default_after_last.
  - intros Hcs ob cb Ho Hc. unfold fixSwitch. rewrite Hcs, Ho, Hc. cbn.
    by rewrite !append_assoc.
Qed.

(** ** The message *)

Lemma land_pow2 (x n : Z) :
  (0 <= n)%Z →
  Z.land x (2 ^ n) = if Z.testbit x n then (2 ^ n)%Z else 0%Z.
Proof.
  intros Hn. apply Z.bits_inj'. intros m Hm.
  rewrite Z.land_spec, Z.pow2_bits_eqb by done.
  destruct (Z.eqb_spec n m) as [->|Hne].
  - destruct (Z.testbit x m).
    + by rewrite Z.pow2_bits_true.
    + by rewrite Z.bits_0.
  - rewrite andb_false_r. destruct (Z.testbit x n).
    + by rewrite Z.pow2_bits_false.
    + by rewrite Z.bits_0.
Qed.

(** The flag test of the message looks at bits 12 and 13 of [type.flags]. *)
Lemma isTypeFlagSet_ESSymbolLike t :
  isTypeFlagSet sv t ESSymbolLike =
  Z.testbit (flags sv t) 12 || Z.testbit (flags sv t) 13.
Proof.
  unfold isTypeFlagSet.
  change ESSymbolLike with (Z.lor (2 ^ 12) (2 ^ 13)).
  rewrite Z.land_lor_distr_r, !land_pow2 by done.
  by destruct (Z.testbit (flags sv t) 12), (Z.testbit (flags sv t) 13).
Qed.

Lemma renderMissing_cases t :
  (isTypeFlagSet sv t ESSymbolLike = true →
     ∀ sym, getSymbol sv t = Some sym →
            renderMissing sv t = "typeof " +:+ escapedName sym)
  ∧ (isTypeFlagSet sv t ESSymbolLike = true → getSymbol sv t = None →
     renderMissing sv t = "typeof undefined")
  ∧ (isTypeFlagSet sv t ESSymbolLike = false →
     renderMissing sv t = typeToString sv t).
Proof.
  unfold renderMissing. repeat split.
  - intros -> sym ->. done.
  - intros -> ->. done.
  - intros ->. done.
Qed.

(** What a reported union switch is reported with. *)
Lemma visit_union_reported r node :
  isUnion sv (discriminantTypeOf sv node) = true →
  hasDefault (cases node) = false →
  missingBranchTypesOf sv (discriminantTypeOf sv node) (cases node) ≠ [] →
  reports (visit sv r node) =
  [reportMissingBranches sv node
     (missingBranchTypesOf sv (discriminantTypeOf sv node) (cases node))
     (symbolNameOf sv node)].
Proof.
  intros Hu Hd Hm. rewrite (visit_union r node Hu Hd). cbn.
  by destruct (missingBranchTypesOf _ _ _).
Qed.

(** C6: every missing member of the union is named in the message, the
    intersection types among them too, and the fix has a clause for exactly
    those that are no intersection types: it is the fix the rule would
    suggest were the intersection types not missing at all. *)
Theorem intersection_listed_but_not_fixed r node :
  isUnion sv (discriminantTypeOf sv node) = true →
  hasDefault (cases node) = false →
  let missing :=
    missingBranchTypesOf sv (discriminantTypeOf sv node) (cases node) in
  let fixable := filter (λ t, isIntersection sv t = false) missing in
  let symbolName := symbolNameOf sv node in
  missing ≠ [] →
  ∃ rep fixed,
    reports (visit sv r node) = [rep]
    ∧ missingBranches rep = join " | " (map (renderMissing sv) missing)
    ∧ suggest rep = [ {| sug_messageId := addMissingCases; sug_fix := fixed |} ]
    ∧ fixed = fixSwitch sv node (map Some missing) symbolName
    ∧ fixed = fixSwitch sv node (map Some fixable) symbolName
    ∧ missingCasesOf sv symbolName (map Some missing) =
        map (caseClause sv symbolName) fixable
    ∧ (∀ t, t ∈ fixable ↔ t ∈ missing ∧ isIntersection sv t = false).
Proof.
  intros Hu Hd missing fixable symbolName Hm.
  eexists _, _. split; [by apply visit_union_reported|].
  cbn. split; [done|]. split; [done|]. split; [done|]. split; [|split].
  - apply fixSwitch_clauses, missingCasesOf_skips.
  - apply missingCasesOf_types.
  - intros t. unfold fixable. rewrite list_elem_of_filter. tauto.
Qed.

(** What the message of a union switch is made of: the report is attached
    to the discriminant, and its message joins with [" | "] one text for
    every missing type: [typeof] and the name of the type's symbol when one
    of the two symbol flags is set and the type has a symbol, the display
    string of the type when no such flag is set.  A type with such a flag
    and without symbol gives [typeof undefined]. *)
Theorem message_renders_missing r node :
  isUnion sv (discriminantTypeOf sv node) = true →
  hasDefault (cases node) = false →
  let missing :=
    missingBranchTypesOf sv (discriminantTypeOf sv node) (cases node) in
  missing ≠ [] →
  ∃ rep,
    reports (visit sv r node) = [rep]
    ∧ rep_node rep = discriminant node
    ∧ rep_messageId rep = switchIsNotExhaustive
    ∧ missingBranches rep = join " | " (map (renderMissing sv) missing)
    ∧ ∀ t, t ∈ missing →
        (isTypeFlagSet sv t ESSymbolLike = true →
           ∀ sym, getSymbol sv t = Some sym →
                  renderMissing sv t = "typeof " +:+ escapedName sym)
        ∧ (isTypeFlagSet sv t ESSymbolLike = true → getSymbol sv t = None →
           renderMissing sv t = "typeof undefined")
        ∧ (isTypeFlagSet sv t ESSymbolLike = false →
           renderMissing sv t = typeToString sv t).
Proof.
  intros Hu Hd missing Hm.
  eexists. split; [by apply visit_union_reported|].
  cbn. split; [done|]. split; [done|]. split; [done|].
  intros t _. apply renderMissing_cases.
Qed.

(** ** Where the fix goes *)

Lemma fixSwitch_after_last node missingBranchTypes symbolName lastCase :
  last (cases node) = Some lastCase →
  fixSwitch sv node missingBranchTypes symbolName =
  Some (insertTextAfter lastCase
    (newline +:+
     join newline
       (map (λ code, repeat_str " " (column (start (case_loc lastCase)))
                       +:+ code)
            (missingCasesOf sv symbolName missingBranchTypes)))).
Proof. intros Hl. unfold fixSwitch. by rewrite Hl. Qed.

Lemma fixSwitch_empty_body node missingBranchTypes symbolName
    openingBrace closingBrace :
  cases node = [] →
  getTokenAfter sv (discriminant node) isOpeningBraceToken
    = Some openingBrace →
  getTokenAfter sv (discriminant node) isClosingBraceToken
    = Some closingBrace →
  fixSwitch sv node missingBranchTypes symbolName =
  Some (replaceTextRange
    (fst (token_range openingBrace), snd (token_range closingBrace))
    ("{" +:+ newline +:+
     join newline
       (map (λ code, repeat_str " " (column (start (loc node))) +:+ code)
            (missingCasesOf sv symbolName missingBranchTypes))
     +:+ newline +:+ repeat_str " " (column (start (loc node))) +:+ "}")).
Proof.
  intros Hcs Ho Hc. unfold fixSwitch. rewrite Hcs, Ho, Hc. cbn.
  done.
Qed.

(** The fix a report suggests is made by [fixSwitch] for the visited
    switch statement: from the missing types and the name of the
    discriminant's symbol on a union, from the single [null] and no name
    otherwise. *)
Lemma reports_fix r node rep :
  rep ∈ reports (visit sv r node) →
  suggest rep =
    [ {| sug_messageId := addMissingCases;
         sug_fix :=
           if isUnion sv (discriminantTypeOf sv node)
           then fixSwitch sv node
                  (map Some
                     (missingBranchTypesOf sv (discriminantTypeOf sv node)
                        (cases node)))
                  (symbolNameOf sv node)
           else fixSwitch sv node [None] None |} ].
Proof.
  destruct (isUnion sv (discriminantTypeOf sv node)) eqn:Hu.
  - destruct (hasDefault (cases node)) eqn:Hd.
    + rewrite (visit_union_default r node Hu Hd). cbn.
      intros H. by apply elem_of_nil in H.
    + rewrite (visit_union r node Hu Hd). cbn.
      destruct (missingBranchTypesOf _ _ _) as [|t missing] eqn:Hm.
      * intros H. by apply elem_of_nil in H.
      * intros H. by apply list_elem_of_singleton in H as ->.
  - rewrite (visit_non_union r node Hu). cbn.
    destruct (r && negb (hasDefault (cases node))).
    + intros H. by apply list_elem_of_singleton in H as ->.
    + intros H. by apply elem_of_nil in H.
Qed.

(** C8: the generated clauses of a reported switch are, on a union, the
    clauses of its missing types that are no intersection types, in their
    order, and otherwise the [default] clause.  When the switch has
    clauses, the fix of the report inserts, after the last clause, a
    newline and these clauses, each behind as many spaces as the column the
    last clause starts at, with newlines between them.  When it has none,
    the fix replaces the range from the opening brace to the closing brace
    by an opening brace, these clauses and a closing brace, all but the
    opening brace behind as many spaces as the column the switch statement
    starts at. *)
Theorem fix_placement r node rep :
  rep ∈ reports (visit sv r node) →
  let clauses :=
    if isUnion sv (discriminantTypeOf sv node)
    then map (caseClause sv (symbolNameOf sv node))
           (filter (λ t, isIntersection sv t = false)
              (missingBranchTypesOf sv (discriminantTypeOf sv node)
                 (cases node)))
    else ["default: { throw new Error('default case') }"] in
  let indented n := map (λ code, repeat_str " " n +:+ code) clauses in
  (∀ lastCase, last (cases node) = Some lastCase →
     suggest rep =
       [ {| sug_messageId := addMissingCases;
            sug_fix :=
              Some (insertTextAfter lastCase
                      (newline +:+
                       join newline
                         (indented (column (start (case_loc lastCase))))))
         |} ])
  ∧ (cases node = [] →
     ∀ openingBrace closingBrace,
       getTokenAfter sv (discriminant node) isOpeningBraceToken
         = Some openingBrace →
       getTokenAfter sv (discriminant node) isClosingBraceToken
         = Some closingBrace →
       suggest rep =
         [ {| sug_messageId := addMissingCases;
              sug_fix :=
                Some (replaceTextRange
                        (fst (token_range openingBrace),
                         snd (token_range closingBrace))
                        ("{" +:+ newline +:+
                         join newline (indented (column (start (loc node))))
                         +:+ newline +:+
                         repeat_str " " (column (start (loc node))) +:+ "}"))
           |} ]).
Proof.
  intros Hrep clauses indented. rewrite (reports_fix r node rep Hrep).
  assert (Hclauses :
    ∃ missingBranchTypes symbolName,
      (if isUnion sv (discriminantTypeOf sv node)
       then fixSwitch sv node
              (map Some
                 (missingBranchTypesOf sv (discriminantTypeOf sv node)
                    (cases node)))
              (symbolNameOf sv node)
       else fixSwitch sv node [None] None)
      = fixSwitch sv node missingBranchTypes symbolName
      ∧ missingCasesOf sv symbolName missingBranchTypes = clauses).
  { unfold clauses. destruct (isUnion sv (discriminantTypeOf sv node)).
    - eexists _, _. split; [done|]. apply missingCasesOf_types.
    - by eexists _, _. }
  destruct Hclauses as (mb & sym & -> & Hcl). unfold indented.
  rewrite <- Hcl. split.
  - intros lastCase Hl. by rewrite (fixSwitch_after_last _ _ _ lastCase Hl).
  - intros Hcs ob cb Ho Hc.
    by rewrite (fixSwitch_empty_body _ _ _ ob cb Hcs Ho Hc).
Qed.

(** C10: when every missing member of the union is an intersection type
    and the switch has clauses, the switch is still reported, with all of
    them in the message, and the text its fix inserts after the last clause
    is one newline. *)
Theorem all_intersection_fix_is_newline r node lastCase :
  isUnion sv (discriminantTypeOf sv node) = true →
  hasDefault (cases node) = false →
  let missing :=
    missingBranchTypesOf sv (discriminantTypeOf sv node) (cases node) in
  missing ≠ [] →
  Forall (λ t, isIntersection sv t = true) missing →
  last (cases node) = Some lastCase →
  missingCasesOf sv (symbolNameOf sv node) (map Some missing) = []
  ∧ reports (visit sv r node) =
    [ {| rep_node := discriminant node;
         rep_messageId := switchIsNotExhaustive;
         missingBranches := join " | " (map (renderMissing sv) missing);
         suggest := [ {| sug_messageId := addMissingCases;
                         sug_fix := Some (insertTextAfter lastCase newline)
                      |} ] |} ].
Proof.
  intros Hu Hd missing Hm Hall Hl.
  assert (Hnone :
    missingCasesOf sv (symbolNameOf sv node) (map Some missing) = []).
  { rewrite missingCasesOf_types.
    replace (filter _ missing) with (@nil TsType); [done|].
    symmetry. apply elem_of_nil_inv. intros t.
    rewrite list_elem_of_filter. intros [Hf Hin].
    rewrite Forall_forall in Hall. specialize (Hall t Hin). congruence. }
  split; [done|].
  rewrite (visit_union_reported r node Hu Hd Hm).
  unfold reportMissingBranches. fold missing.
  rewrite (fixSwitch_after_last _ _ _ lastCase Hl), Hnone. done.
Qed.

(** ** The text of a generated clause *)

Lemma replace_all_app ch by_ (a b : string) :
  replace_all ch by_ (a +:+ b) =
  replace_all ch by_ a +:+ replace_all ch by_ b.
Proof.
  induction a as [|x a IH]; [done|].
  rewrite append_cons. cbn [replace_all]. rewrite IH.
  destruct (Ascii.eqb x ch); [|done]. by rewrite append_assoc.
Qed.

Lemma replace_all_absent ch by_ (a : string) :
  occurs ch a = false → replace_all ch by_ a = a.
Proof.
  induction a as [|x a IH]; [done|]. cbn.
  destruct (Ascii.eqb x ch); [done|]. intros H. by rewrite (IH H).
Qed.

(** In the error message every single quote of the case test gets a
    backslash in front. *)
Lemma caseClause_text symbolName t :
  caseClause sv symbolName t =
  "case " +:+ caseTestOf sv symbolName t
    +:+ ": { throw new Error('Not implemented yet: "
    +:+ replace_all quote_char "\'" (caseTestOf sv symbolName t)
    +:+ " case') }".
Proof.
  unfold caseClause. cbn zeta.
  rewrite !replace_all_app. cbn [replace_all].
  change (backslash +:+ "'") with "\'". cbn.
  by rewrite !append_assoc.
Qed.

Lemma caseTestOf_rewritten symbolName t sym branch :
  symbolName = Some sym → sym ≠ EmptyString →
  getSymbol sv t = Some branch →
  requiresQuoting sv (escapedName branch) (target sv) = true →
  caseTestOf sv symbolName t =
  sym +:+ "['" +:+
    replace_all return_char "\r"
      (replace_all newline_char "\n"
         (replace_all quote_char "\'" (escapedName branch)))
    +:+ "']".
Proof.
  intros -> Hne Hb Hq. unfold caseTestOf. rewrite Hb. cbn.
  rewrite Hq. apply String.eqb_neq in Hne. by rewrite Hne.
Qed.

Lemma caseTestOf_plain symbolName t :
  (symbolName = None ∨ symbolName = Some EmptyString
   ∨ getSymbol sv t = None
   ∨ ∃ branch, getSymbol sv t = Some branch
       ∧ requiresQuoting sv (escapedName branch) (target sv) = false) →
  caseTestOf sv symbolName t = typeToString sv t.
Proof.
  unfold caseTestOf. intros [->|[->|[->|(branch & -> & Hq)]]].
  - done.
  - by destruct (getSymbol sv t).
  - by destruct symbolName.
  - destruct symbolName; [|done]. cbn. by rewrite Hq, andb_false_r.
Qed.

(** C9, as the code has it: the case test of a missing type that is no
    intersection type is its display string, unless the discriminant's type
    has a symbol with a non-empty name, the missing type has a symbol, and
    the name of that symbol needs quoting; then it is the bracket access
    [symbolName['name']], with single quotes, then newlines, then carriage
    returns of the name escaped.  The clause is
    [case <caseTest>: { throw new Error('<message>') }], where the message
    is [Not implemented yet: <caseTest> case] with a backslash put in front
    of every single quote; it shows the case test unchanged when that has
    no single quote. *)
Theorem generated_clause_text symbolName t :
  let caseTest := caseTestOf sv symbolName t in
  (∀ sym branch,
     symbolName = Some sym → sym ≠ EmptyString →
     getSymbol sv t = Some branch →
     requiresQuoting sv (escapedName branch) (target sv) = true →
     caseTest =
     sym +:+ "['" +:+
       replace_all return_char "\r"
         (replace_all newline_char "\n"
            (replace_all quote_char "\'" (escapedName branch)))
       +:+ "']")
  ∧ ((symbolName = None ∨ symbolName = Some EmptyString
      ∨ getSymbol sv t = None
      ∨ ∃ branch, getSymbol sv t = Some branch
          ∧ requiresQuoting sv (escapedName branch) (target sv) = false) →
     caseTest = typeToString sv t)
  ∧ (isIntersection sv t = false →
     missingCasesOf sv symbolName [Some t] =
     ["case " +:+ caseTest
        +:+ ": { throw new Error('Not implemented yet: "
        +:+ replace_all quote_char "\'" caseTest +:+ " case') }"])
  ∧ (isIntersection sv t = false → occurs quote_char caseTest = false →
     missingCasesOf sv symbolName [Some t] =
     ["case " +:+ caseTest
        +:+ ": { throw new Error('Not implemented yet: "
        +:+ caseTest +:+ " case') }"]).
Proof.
  intros caseTest. split; [|split; [|split]].
  - intros sym branch. apply caseTestOf_rewritten.
  - apply caseTestOf_plain.
  - intros Hi. cbn. rewrite Hi. by rewrite caseClause_text.
  - intros Hi Hq. cbn. rewrite Hi.
    by rewrite caseClause_text, (replace_all_absent _ _ _ Hq).
Qed.

End Properties.

(** * The rule at work *)

(** Three literals, clauses for two of them: the third is reported and the
    fix adds its clause after the last one. *)
Example two_of_three_reported :
  visit demo false switch_two_of_three =
  {| resolved := [101; 102; 103]%positive;
     reports :=
       [ {| rep_node := 101;
            rep_messageId := switchIsNotExhaustive;
            missingBranches := dquote +:+ "c" +:+ dquote;
            suggest :=
              [ {| sug_messageId := addMissingCases;
                   sug_fix :=
                     Some (insertTextAfter (case_of 103 4)
                       (newline +:+ "    case " +:+ dquote +:+ "c" +:+ dquote
                          +:+ ": { throw new Error('Not implemented yet: "
                          +:+ dquote +:+ "c" +:+ dquote +:+ " case') }"))
                |} ] |} ] |}.
Proof. reflexivity. Qed.

Example two_of_three_message :
  map (λ rep, message (rep_messageId rep) (missingBranches rep))
      (reports (visit demo false switch_two_of_three)) =
  ["Switch is not exhaustive. Cases not matched: "
     +:+ dquote +:+ "c" +:+ dquote].
Proof. reflexivity. Qed.

Example all_three_not_reported :
  reports (visit demo false switch_all_three) = [].
Proof. reflexivity. Qed.

Example string_needs_default :
  reports (visit demo true switch_on_string) =
  [ {| rep_node := 105;
       rep_messageId := switchIsNotExhaustive;
       missingBranches := "default";
       suggest :=
         [ {| sug_messageId := addMissingCases;
              sug_fix :=
                Some (insertTextAfter (case_of 102 3)
                  (newline +:+
                   "   default: { throw new Error('default case') }"))
           |} ] |} ].
Proof. reflexivity. Qed.

Example empty_enum_body_replaced :
  map suggest (reports (visit demo false switch_empty_enum)) =
  [ [ {| sug_messageId := addMissingCases;
         sug_fix :=
           Some (replaceTextRange (11, 14)%nat
             ("{" +:+ newline +:+
              "  case Enum['a-b']: { throw new Error('Not implemented yet: Enum[\'a-b\'] case') }"
              +:+ newline +:+
              "  case Enum.ok: { throw new Error('Not implemented yet: Enum.ok case') }"
              +:+ newline +:+ "  }"))
      |} ] ].
Proof. reflexivity. Qed.

(** Type [40] prints like type [2] and is another object: a clause for it
    leaves [2] missing. *)
Example same_display_string_not_covered :
  typeToString demo 40 = typeToString demo 2
  ∧ missingBranchTypesOf demo 1
      [case_of 140 4; case_of 103 4; case_of 104 4] = [2%positive].
Proof. split; reflexivity. Qed.

(** * The properties at the sample program *)

Lemma union_exhaustive_iff_all_handled_witness :
  isUnion demo (discriminantTypeOf demo switch_two_of_three) = true
  ∧ hasDefault (cases switch_two_of_three) = false
  ∧ reports (visit demo false switch_two_of_three) =
      [reportMissingBranches demo switch_two_of_three [4%positive] None]
  ∧ (4%positive ∈ missingBranchTypesOf demo 1 (cases switch_two_of_three) ↔
     4%positive ∈ unionTypeParts demo 1
     ∧ ¬ ∃ c, c ∈ cases switch_two_of_three ∧ handles demo c 4).
Proof.
  split; [reflexivity|]. split; [reflexivity|].
  destruct (union_exhaustive_iff_all_handled demo false switch_two_of_three
              eq_refl eq_refl) as (_ & Hreported & Hmissing).
  split.
  - apply Hreported. discriminate.
  - apply Hmissing.
Defined.

Lemma default_clause_never_reported_witness :
  (∃ c, c ∈ cases switch_with_default ∧ test c = None)
  ∧ reports (visit demo false switch_with_default) = []
  ∧ resolved (visit demo false switch_with_default) = [101; 102]%positive.
Proof.
  assert (Hd : ∃ c, c ∈ cases switch_with_default ∧ test c = None).
  { exists (default_at 4). split; [|reflexivity].
    apply list_elem_of_further, list_elem_of_here. }
  split; [exact Hd|].
  destruct (default_clause_never_reported demo false switch_with_default Hd)
    as [Hnone Hstop].
  split; [exact Hnone|].
  exact (Hstop eq_refl [case_of 102 4] (default_at 4) [case_of 103 4]
           eq_refl eq_refl eq_refl).
Defined.

Lemma missing_order_is_union_order_witness :
  let node := switch_on 101 [case_of 104 4; case_of 102 4] in
  let node' := switch_on 101 [case_of 102 4; case_of 104 4] in
  isUnion demo (discriminantTypeOf demo node) = true
  ∧ hasDefault (cases node) = false
  ∧ cases node' ≡ₚ cases node
  ∧ sublist [3%positive] [2; 3; 4]%positive
  ∧ reports (visit demo false node) =
      [reportMissingBranches demo node [3%positive] None]
  ∧ reports (visit demo false node') =
      [reportMissingBranches demo node' [3%positive] None].
Proof.
  intros node node'.
  assert (Hp : cases node' ≡ₚ cases node) by apply perm_swap.
  split; [reflexivity|]. split; [reflexivity|]. split; [exact Hp|].
  exact (missing_order_is_union_order demo false node node'
           eq_refl eq_refl eq_refl Hp).
Defined.

Lemma duplicate_clause_keeps_missing_witness :
  let node := switch_on 101 [] in
  let c := case_of 202 4 in
  isUnion demo (discriminantTypeOf demo node) = true
  ∧ hasDefault ([case_of 102 4] ++ c :: [case_of 103 4]) = false
  ∧ handles demo c 2
  ∧ missingBranchTypesOf demo 1 ([case_of 102 4] ++ c :: [case_of 103 4])
    = missingBranchTypesOf demo 1 ([case_of 102 4] ++ [case_of 103 4]).
Proof.
  intros node c.
  assert (Hc : handles demo c 2) by (by exists 202%positive).
  split; [reflexivity|]. split; [reflexivity|]. split; [exact Hc|].
  destruct (duplicate_clause_keeps_missing demo false node
              [case_of 102 4] c [case_of 103 4] 2 eq_refl eq_refl Hc)
    as (_ & _ & Hdup).
  apply Hdup. exists (case_of 102 4). split.
  - apply list_elem_of_here.
  - by exists 102%positive.
Defined.

Lemma non_union_requires_default_witness :
  isUnion demo (discriminantTypeOf demo switch_on_string) = false
  ∧ reports (visit demo false switch_on_string) = []
  ∧ fixSwitch demo switch_on_string [None] None =
    Some (insertTextAfter (case_of 102 3)
            (newline +:+ "   default: { throw new Error('default case') }")).
Proof.
  split; [reflexivity|].
  destruct (non_union_requires_default demo switch_on_string eq_refl)
    as (Hoff & _ & _ & _ & Hfix & _).
  split; [exact Hoff|]. exact (Hfix (case_of 102 3) eq_refl).
Defined.

Lemma intersection_listed_but_not_fixed_witness :
  isUnion demo (discriminantTypeOf demo switch_on_mixed) = true
  ∧ hasDefault (cases switch_on_mixed) = false
  ∧ missingBranchTypesOf demo 20 (cases switch_on_mixed) = [21; 22; 2]%positive
  ∧ ∃ rep fixed,
      reports (visit demo false switch_on_mixed) = [rep]
      ∧ missingBranches rep =
          join " | " (map (renderMissing demo) [21; 22; 2]%positive)
      ∧ suggest rep =
          [ {| sug_messageId := addMissingCases; sug_fix := fixed |} ]
      ∧ fixed = fixSwitch demo switch_on_mixed [Some 22; Some 2]%positive None.
Proof.
  split; [reflexivity|]. split; [reflexivity|]. split; [reflexivity|].
  destruct (intersection_listed_but_not_fixed demo false switch_on_mixed
              eq_refl eq_refl)
    as (rep & fixed & Hrep & Hmsg & Hsug & _ & Hfix & _); [discriminate|].
  exists rep, fixed. split; [exact Hrep|]. split; [exact Hmsg|].
  split; [exact Hsug|]. exact Hfix.
Defined.

Lemma message_renders_missing_witness :
  isUnion demo (discriminantTypeOf demo switch_on_mixed) = true
  ∧ hasDefault (cases switch_on_mixed) = false
  ∧ ∃ rep,
      reports (visit demo false switch_on_mixed) = [rep]
      ∧ rep_node rep = 120%positive
      ∧ missingBranches rep =
          "string & Brand | typeof sym | " +:+ dquote +:+ "a" +:+ dquote.
Proof.
  split; [reflexivity|]. split; [reflexivity|].
  destruct (message_renders_missing demo false switch_on_mixed
              eq_refl eq_refl)
    as (rep & Hrep & Hnode & _ & Hmsg & _); [discriminate|].
  exists rep. split; [exact Hrep|]. split; [exact Hnode|]. exact Hmsg.
Defined.

Lemma fix_placement_witness :
  let rep := reportMissingBranches demo switch_two_of_three [4%positive] None in
  rep ∈ reports (visit demo false switch_two_of_three)
  ∧ suggest rep =
      [ {| sug_messageId := addMissingCases;
           sug_fix :=
             Some (insertTextAfter (case_of 103 4)
               (newline +:+ "    case " +:+ dquote +:+ "c" +:+ dquote
                  +:+ ": { throw new Error('Not implemented yet: "
                  +:+ dquote +:+ "c" +:+ dquote +:+ " case') }"))
        |} ].
Proof.
  intros rep.
  assert (Hin : rep ∈ reports (visit demo false switch_two_of_three))
    by apply list_elem_of_here.
  split; [exact Hin|].
  destruct (fix_placement demo false switch_two_of_three rep Hin)
    as [Hafter _].
  exact (Hafter (case_of 103 4) eq_refl).
Defined.

Lemma all_intersection_fix_is_newline_witness :
  isUnion demo (discriminantTypeOf demo switch_on_branded) = true
  ∧ hasDefault (cases switch_on_branded) = false
  ∧ missingBranchTypesOf demo 30 (cases switch_on_branded) = [21; 31]%positive
  ∧ reports (visit demo false switch_on_branded) =
    [ {| rep_node := 130;
         rep_messageId := switchIsNotExhaustive;
         missingBranches := "string & Brand | void & Brand";
         suggest := [ {| sug_messageId := addMissingCases;
                         sug_fix :=
                           Some (insertTextAfter (case_of 112 3) newline)
                      |} ] |} ].
Proof.
  split; [reflexivity|]. split; [reflexivity|]. split; [reflexivity|].
  refine (proj2 (all_intersection_fix_is_newline demo false switch_on_branded
                   (case_of 112 3) eq_refl eq_refl _ _ eq_refl)).
  - discriminate.
  - repeat constructor.
Defined.

Lemma generated_clause_text_witness :
  missingCasesOf demo (Some "Enum") [Some 11%positive] =
  ["case Enum['a-b']: { throw new Error('Not implemented yet: Enum[\'a-b\'] case') }"]
  ∧ caseTestOf demo (Some "Enum") 12 = "Enum.ok".
Proof.
  destruct (generated_clause_text demo (Some "Enum") 11)
    as (_ & _ & Hclause & _).
  destruct (generated_clause_text demo (Some "Enum") 12)
    as (_ & Hplain & _).
  split.
  - exact (Hclause eq_refl).
  - apply Hplain. right. right. right.
    by exists {| escapedName := "ok" |}.
Defined.

(** C9 as it is stated fails: the clause for the enum member [a-b] is not
    the one with the case test copied into the error message, since the
    message has its single quotes escaped. *)
Lemma generated_clause_unescaped_refuted :
  isIntersection demo 11 = false
  ∧ caseTestOf demo (Some "Enum") 11 = "Enum['a-b']"
  ∧ missingCasesOf demo (Some "Enum") [Some 11%positive] ≠
    ["case " +:+ caseTestOf demo (Some "Enum") 11
       +:+ ": { throw new Error('Not implemented yet: "
       +:+ caseTestOf demo (Some "Enum") 11 +:+ " case') }"].
Proof.
  split; [reflexivity|]. split; [reflexivity|].
  intros H. vm_compute in H. discriminate H.
Qed.

(** C3 as it is stated fails: [type T = "a" | "b"] is declared with [a] in
    front of [b], the checker holds [b] in front of [a], and a switch
    statement on [T] without clauses is reported with [b] in front of [a]:
    the missing list is in the order of the checker, not in the order of
    the declaration. *)
Lemma missing_order_not_declaration_order :
  declaration_order 9 ≡ₚ unionTypeParts demo2 9
  ∧ missingBranchTypesOf demo2 (discriminantTypeOf demo2 switch_on_T)
      (cases switch_on_T) = [3; 2]%positive
  ∧ map missingBranches (reports (visit demo2 false switch_on_T)) =
      [dquote +:+ "b" +:+ dquote +:+ " | " +:+ dquote +:+ "a" +:+ dquote]
  ∧ ¬ sublist
        (missingBranchTypesOf demo2 (discriminantTypeOf demo2 switch_on_T)
           (cases switch_on_T))
        (declaration_order 9).
Proof.
  split; [apply perm_swap|]. split; [reflexivity|]. split; [reflexivity|].
  change (¬ sublist [3; 2]%positive [2; 3]%positive). intros H.
  apply sublist_cons_r in H as [H|(l' & Heq & _)]; [|discriminate Heq].
  apply sublist_cons_r in H as [H|(l' & Heq & H)].
  - by apply sublist_nil_r in H.
  - injection Heq as <-. by apply sublist_nil_r in H.
Qed.

(** C7 at a member without symbol: in the union of [symbol] and a literal,
    [symbol] has a symbol flag and no symbol, and a switch statement that
    leaves it out is reported with [typeof undefined], where the message
    should name what is missing. *)
Lemma symbol_member_rendered_undefined :
  isUnion demo2 (discriminantTypeOf demo2 switch_on_symbol_or_a) = true
  ∧ missingBranchTypesOf demo2 (discriminantTypeOf demo2 switch_on_symbol_or_a)
      (cases switch_on_symbol_or_a) = [50%positive]
  ∧ isTypeFlagSet demo2 50 ESSymbolLike = true
  ∧ getSymbol demo2 50 = None
  ∧ typeToString demo2 50 = "symbol"
  ∧ map (λ rep, message (rep_messageId rep) (missingBranches rep))
        (reports (visit demo2 false switch_on_symbol_or_a)) =
      ["Switch is not exhaustive. Cases not matched: typeof undefined"].
Proof. repeat split; reflexivity. Qed.

(** * Further properties of switch-exhaustiveness-check *)

Section Visits.
Context (sv : Services).
Implicit Types (node : SwitchStatement) (cs : list SwitchCase).
Implicit Types (c : SwitchCase) (t : TsType) (s : RuleState).

(** A switch statement is reported exactly when it has no [default] clause
    and either its discriminant is a union with a member that no clause
    handles, or its discriminant is no union and the option is on. *)
Theorem reported_iff r node :
  reports (visit sv r node) ≠ [] ↔
  hasDefault (cases node) = false
  ∧ (if isUnion sv (discriminantTypeOf sv node)
     then missingBranchTypesOf sv (discriminantTypeOf sv node) (cases node)
          ≠ []
     else r = true).
Proof.
  destruct (isUnion sv (discriminantTypeOf sv node)) eqn:Hu.
  - destruct (hasDefault (cases node)) eqn:Hd.
    + rewrite (visit_union_default sv r node Hu Hd). cbn.
      split; [done|]. by intros [? _].
    + rewrite (visit_union sv r node Hu Hd). cbn.
      destruct (missingBranchTypesOf _ _ _); split; try done.
      by intros [_ ?].
  - rewrite (visit_non_union sv r node Hu). cbn.
    destruct r, (hasDefault (cases node)); cbn; split; try done;
      by intros [? ?].
Qed.

(** A visit reports at most once; the report is attached to the
    discriminant, has the message [switchIsNotExhaustive] and suggests one
    fix, under [addMissingCases]. *)
Theorem one_report_per_switch r node :
  (length (reports (visit sv r node)) <= 1)%nat
  ∧ ∀ rep, rep ∈ reports (visit sv r node) →
      rep_node rep = discriminant node
      ∧ rep_messageId rep = switchIsNotExhaustive
      ∧ ∃ fixed, suggest rep =
          [ {| sug_messageId := addMissingCases; sug_fix := fixed |} ].
Proof.
  assert (Hcases :
    reports (visit sv r node) = []
    ∨ (∃ missing sym,
         reports (visit sv r node) =
           [reportMissingBranches sv node missing sym])
    ∨ reports (visit sv r node) = [reportMissingDefault sv node]).
  { destruct (isUnion sv (discriminantTypeOf sv node)) eqn:Hu.
    - destruct (hasDefault (cases node)) eqn:Hd.
      + left. by rewrite (visit_union_default sv r node Hu Hd).
      + rewrite (visit_union sv r node Hu Hd). cbn.
        destruct (missingBranchTypesOf _ _ _) eqn:Hm; [by left|].
        right. left. by eexists _, _.
    - rewrite (visit_non_union sv r node Hu). cbn.
      destruct (r && negb (hasDefault (cases node))); [|by left].
      right. by right. }
  destruct Hcases as [->|[(missing & sym & ->)| ->]]; cbn.
  - split; [lia|]. intros rep H. by apply elem_of_nil in H.
  - split; [lia|]. intros rep H. apply list_elem_of_singleton in H as ->.
    cbn. split; [done|]. split; [done|]. by eexists.
  - split; [lia|]. intros rep H. apply list_elem_of_singleton in H as ->.
    cbn. split; [done|]. split; [done|]. by eexists.
Qed.

(** Visiting the switch statements of a file one after the other reports
    for each what visiting it alone reports, in the order of the visits:
    nothing is carried over from one switch statement to the next. *)
Theorem checkAll_concat r (nodes : list SwitchStatement) s :
  checkAll sv r nodes s =
  ((), {| resolved :=
            resolved s ++ concat (map (λ n, resolved (visit sv r n)) nodes);
          reports :=
            reports s ++ concat (map (λ n, reports (visit sv r n)) nodes) |}).
Proof.
  revert s. induction nodes as [|node nodes IH]; intros s.
  - cbn. unfold ret. rewrite !app_nil_r. by destruct s.
  - cbn [checkAll map concat]. unfold bind.
    rewrite checkSwitchExhaustive_frame, IH. cbn [resolved reports].
    by rewrite !(assoc_L (++)).
Qed.

(** The types a visit asks for: that of the discriminant, and on a union
    those of the tests in front of the first [default] clause.  The tests
    of a switch on a type that is no union are never looked at, and no
    other node ever is. *)
Theorem resolved_nodes r node :
  resolved (visit sv r node) =
    discriminant node ::
    (if isUnion sv (discriminantTypeOf sv node)
     then testsBeforeDefault (cases node) else [])
  ∧ (length (resolved (visit sv r node)) <= 1 + length (cases node))%nat
  ∧ ∀ e, e ∈ resolved (visit sv r node) →
      e = discriminant node ∨ ∃ c, c ∈ cases node ∧ test c = Some e.
Proof.
  assert (Hlen : ∀ cs, (length (testsBeforeDefault cs) <= length cs)%nat).
  { induction cs as [|c cs IH]; [done|]. cbn.
    destruct (test c); cbn; lia. }
  assert (Hin : ∀ cs e, e ∈ testsBeforeDefault cs →
                        ∃ c, c ∈ cs ∧ test c = Some e).
  { induction cs as [|c cs IH]; intros e He.
    - by apply elem_of_nil in He.
    - cbn in He. destruct (test c) as [e'|] eqn:Hc.
      + apply elem_of_cons in He as [->|He].
        * exists c. split; [left|done].
        * destruct (IH e He) as (c' & Hc' & Ht). exists c'.
          split; [by right|done].
      + by apply elem_of_nil in He. }
  assert (Hres : resolved (visit sv r node) =
    discriminant node ::
    (if isUnion sv (discriminantTypeOf sv node)
     then testsBeforeDefault (cases node) else [])).
  { destruct (isUnion sv (discriminantTypeOf sv node)) eqn:Hu.
    - destruct (hasDefault (cases node)) eqn:Hd.
      + by rewrite (visit_union_default sv r node Hu Hd).
      + by rewrite (visit_union sv r node Hu Hd).
    - by rewrite (visit_non_union sv r node Hu). }
  split; [done|]. rewrite Hres. split.
  - cbn. destruct (isUnion sv _); cbn; [|lia].
    specialize (Hlen (cases node)). lia.
  - intros e He. apply elem_of_cons in He as [->|He]; [by left|].
    right. destruct (isUnion sv _).
    + by apply Hin.
    + by apply elem_of_nil in He.
Qed.

(** The option plays no part on a union. *)
Theorem option_ignored_on_union r r' node :
  isUnion sv (discriminantTypeOf sv node) = true →
  visit sv r node = visit sv r' node.
Proof.
  intros Hu. destruct (hasDefault (cases node)) eqn:Hd.
  - by rewrite !(visit_union_default sv _ node Hu Hd).
  - by rewrite !(visit_union sv _ node Hu Hd).
Qed.

(** One more clause never puts a type on the missing list: the list with
    the clause is what is left of the list without it, in the same
    order. *)
Theorem extra_clause_shrinks_missing t0 cs1 c cs2 :
  hasDefault (cs1 ++ c :: cs2) = false →
  sublist (missingBranchTypesOf sv t0 (cs1 ++ c :: cs2))
          (missingBranchTypesOf sv t0 (cs1 ++ cs2)).
Proof.
  intros Hd.
  assert (Hc : ∃ t, handles sv c t).
  { destruct (test c) as [e|] eqn:He.
    - exists (typeAtLocation sv e), e. done.
    - exfalso. apply (proj1 (hasDefault_false _) Hd c); [|done].
      rewrite elem_of_app, elem_of_cons. tauto. }
  destruct Hc as [t Hc].
  rewrite (missingBranchTypesOf_insert sv t0 cs1 c cs2 t Hd Hc).
  apply sublist_filter.
Qed.

(** Clauses put behind the last one that together handle every type on
    the missing list make the switch statement pass. *)
Theorem handling_missing_silences r node (added : list SwitchCase) :
  isUnion sv (discriminantTypeOf sv node) = true →
  hasDefault (cases node ++ added) = false →
  (∀ t, t ∈ missingBranchTypesOf sv (discriminantTypeOf sv node) (cases node) →
        ∃ c, c ∈ added ∧ handles sv c t) →
  reports (visit sv r (with_cases node (cases node ++ added))) = [].
Proof.
  intros Hu Hd Hadded.
  assert (Hd0 : hasDefault (cases node) = false).
  { apply hasDefault_false. intros c Hin.
    apply (proj1 (hasDefault_false _) Hd c). rewrite elem_of_app. tauto. }
  rewrite (visit_union sv r (with_cases node (cases node ++ added)) Hu Hd).
  cbn [reports].
  replace (missingBranchTypesOf sv _ _) with (@nil TsType); [done|].
  symmetry. apply (missingBranchTypesOf_nil sv _ _ Hd). intros t Hin.
  change (discriminantTypeOf sv (with_cases node (cases node ++ added)))
    with (discriminantTypeOf sv node) in Hin.
  destruct (decide (t ∈ coveredTypes sv (cases node))) as [Hc|Hc].
  - apply (elem_of_coveredTypes sv _ t Hd0) in Hc as (c & Hc & Hh).
    exists c. cbn. rewrite elem_of_app. tauto.
  - destruct (Hadded t) as (c & Hc' & Hh).
    + unfold missingBranchTypesOf. by apply list_elem_of_filter.
    + exists c. cbn. rewrite elem_of_app. tauto.
Qed.

End Visits.

(** * Further properties of the fix *)

Section Fixes.
Context (sv : Services).
Implicit Types (node : SwitchStatement) (t : TsType).

(** [fixSwitch] fails only on a switch statement without clauses for which
    one of the two braces is not found; with a clause it never looks for a
    token. *)
Theorem fixSwitch_fails_iff node missingBranchTypes symbolName :
  fixSwitch sv node missingBranchTypes symbolName = None ↔
  cases node = []
  ∧ (getTokenAfter sv (discriminant node) isOpeningBraceToken = None
     ∨ getTokenAfter sv (discriminant node) isClosingBraceToken = None).
Proof.
  unfold fixSwitch. destruct (last (cases node)) as [lastCase|] eqn:Hl.
  - split; [done|]. intros [Hcs _]. by rewrite Hcs in Hl.
  - apply last_None in Hl.
    destruct (getTokenAfter sv (discriminant node) isOpeningBraceToken);
      destruct (getTokenAfter sv (discriminant node) isClosingBraceToken);
      cbn; split; try done; try tauto.
    by intros [_ [?|?]].
Qed.

(** No more clauses are generated than there are missing branch types. *)
Lemma missingCasesOf_length_le symbolName
    (missingBranchTypes : list (option TsType)) :
  (length (missingCasesOf sv symbolName missingBranchTypes)
   <= length missingBranchTypes)%nat.
Proof.
  induction missingBranchTypes as [|[t|] rest IH]; cbn; [lia| |lia].
  destruct (isIntersection sv t); cbn; lia.
Qed.

(** The fix of the union path has one clause for every missing type that
    is no intersection type: the clauses and the intersection types
    together are as many as the missing types. *)
Theorem generated_clause_count symbolName (missing : list TsType) :
  (length (missingCasesOf sv symbolName (map Some missing))
   + length (filter (λ t, isIntersection sv t = true) missing)
   = length missing)%nat
  ∧ (length (missingCasesOf sv symbolName (map Some missing))
     = length missing ↔
     ∀ t, t ∈ missing → isIntersection sv t = false).
Proof.
  assert (Hsum :
    (length (missingCasesOf sv symbolName (map Some missing))
     + length (filter (λ t, isIntersection sv t = true) missing)
     = length missing)%nat).
  { induction missing as [|t missing IH]; [done|].
    cbn [map missingCasesOf]. destruct (isIntersection sv t) eqn:Ht.
    - rewrite filter_cons_True by done. cbn [length]. lia.
    - rewrite filter_cons_False by congruence. cbn [length]. lia. }
  split; [done|]. split.
  - intros Hlen t Hin. destruct (isIntersection sv t) eqn:Ht; [|done].
    assert (Hf : t ∈ filter (λ t, isIntersection sv t = true) missing)
      by by apply list_elem_of_filter.
    destruct (filter _ missing); [by apply elem_of_nil in Hf|].
    cbn [length] in Hsum. lia.
  - intros Hall.
    replace (filter (λ t, isIntersection sv t = true) missing)
      with (@nil TsType) in Hsum; [cbn in Hsum; lia|].
    symmetry. apply elem_of_nil_inv. intros t.
    rewrite list_elem_of_filter. intros [Ht Hin].
    rewrite (Hall t Hin) in Ht. done.
Qed.

Lemma starts_with_append (p s : string) : starts_with p (p +:+ s) = true.
Proof.
  induction p as [|a p IH]; [done|].
  rewrite append_cons. cbn. by rewrite Ascii.eqb_refl, IH.
Qed.

(** Every generated clause is the [default] clause or starts with [case];
    those generated for the missing types of a union all start with
    [case]: the fix of the union path never adds a [default] clause. *)
Theorem generated_clauses_are_cases symbolName :
  (∀ missingBranchTypes clause,
     clause ∈ missingCasesOf sv symbolName missingBranchTypes →
     clause = "default: { throw new Error('default case') }"
     ∨ starts_with "case " clause = true)
  ∧ (∀ (missing : list TsType) clause,
       clause ∈ missingCasesOf sv symbolName (map Some missing) →
       starts_with "case " clause = true
       ∧ clause ≠ "default: { throw new Error('default case') }").
Proof.
  assert (Hcase : ∀ t, starts_with "case " (caseClause sv symbolName t) = true).
  { intros t. unfold caseClause. cbn zeta. apply starts_with_append. }
  split.
  - induction missingBranchTypes as [|[t|] rest IH]; intros clause Hin.
    + by apply elem_of_nil in Hin.
    + cbn in Hin. destruct (isIntersection sv t); [by apply IH|].
      apply elem_of_cons in Hin as [->|Hin]; [|by apply IH].
      right. apply Hcase.
    + cbn in Hin. apply elem_of_cons in Hin as [->|Hin]; [by left|].
      by apply IH.
  - intros missing clause Hin.
    rewrite missingCasesOf_types in Hin.
    apply list_elem_of_fmap in Hin as (t & -> & _).
    split; [apply Hcase|]. intros Heq.
    specialize (Hcase t). rewrite Heq in Hcase. discriminate Hcase.
Qed.

End Fixes.

(** * Properties of the escaping *)

Lemma occurs_append ch (a b : string) :
  occurs ch (a +:+ b) = occurs ch a || occurs ch b.
Proof.
  induction a as [|x a IH]; [done|]. rewrite append_cons. cbn.
  rewrite IH. by destruct (Ascii.eqb x ch).
Qed.

(** Replacing [ch] by a text without [ch] leaves no [ch]. *)
Lemma replace_all_removes ch by_ (s : string) :
  occurs ch by_ = false → occurs ch (replace_all ch by_ s) = false.
Proof.
  intros Hby. induction s as [|x s IH]; [done|]. cbn.
  destruct (Ascii.eqb x ch) eqn:Hx.
  - by rewrite occurs_append, Hby, IH.
  - cbn. by rewrite Hx, IH.
Qed.

(** Replacing another character by a text without [ch] brings no [ch]. *)
Lemma replace_all_keeps_absent ch other by_ (s : string) :
  occurs ch by_ = false → occurs ch s = false →
  occurs ch (replace_all other by_ s) = false.
Proof.
  intros Hby. induction s as [|x s IH]; [done|]. cbn.
  destruct (Ascii.eqb x ch) eqn:Hx; [done|]. intros Hs.
  destruct (Ascii.eqb x other).
  - by rewrite occurs_append, Hby, IH.
  - cbn. by rewrite Hx, IH.
Qed.

Lemma replace_quotes_escaped b (s : string) :
  quotes_escaped_after b (replace_all quote_char "\'" s) = true.
Proof.
  revert b. induction s as [|x s IH]; intros b; [done|]. cbn [replace_all].
  destruct (Ascii.eqb x quote_char) eqn:Hx.
  - change ("\'" +:+ replace_all quote_char "\'" s)
      with (String backslash_char
              (String quote_char (replace_all quote_char "\'" s))).
    cbn. apply IH.
  - cbn. rewrite Hx. cbn. apply IH.
Qed.

(** Replacing a character that is neither a single quote nor a backslash
    by a backslash and a letter keeps every single quote behind its
    backslash. *)
Lemma replace_keeps_quotes_escaped ch letter b (s : string) :
  Ascii.eqb ch quote_char = false →
  Ascii.eqb ch backslash_char = false →
  Ascii.eqb letter quote_char = false →
  Ascii.eqb letter backslash_char = false →
  quotes_escaped_after b s = true →
  quotes_escaped_after b
    (replace_all ch (String backslash_char (String letter EmptyString)) s)
  = true.
Proof.
  intros Hq Hb Hlq Hlb. revert b.
  induction s as [|x s IH]; intros b; [done|]. cbn [replace_all].
  destruct (Ascii.eqb_spec x ch) as [->|Hne].
  - change (String backslash_char (String letter EmptyString) +:+ ?rest)
      with (String backslash_char (String letter rest)).
    cbn. rewrite Hq, Hb, Hlq, Hlb. cbn. intros Hs. by apply IH.
  - cbn. intros Hs. apply andb_true_iff in Hs as [Hx Hs].
    rewrite Hx. cbn. by apply IH.
Qed.

(** The escaped branch name has no newline and no carriage return, and
    each of its single quotes is behind a backslash; a name with none of
    the three characters is left as it is. *)
Theorem escapeBranchName_safe (name : string) :
  occurs newline_char (escapeBranchName name) = false
  ∧ occurs return_char (escapeBranchName name) = false
  ∧ quotes_escaped (escapeBranchName name) = true
  ∧ (occurs quote_char name = false → occurs newline_char name = false →
     occurs return_char name = false → escapeBranchName name = name).
Proof.
  unfold escapeBranchName, quotes_escaped.
  change (backslash +:+ "r")
    with (String backslash_char (String "r"%char EmptyString)).
  change (backslash +:+ "n")
    with (String backslash_char (String "n"%char EmptyString)).
  change (backslash +:+ "'") with "\'".
  split; [|split; [|split]].
  - apply replace_all_keeps_absent; [reflexivity|].
    apply replace_all_removes. reflexivity.
  - apply replace_all_removes. reflexivity.
  - apply replace_keeps_quotes_escaped; try reflexivity.
    apply replace_keeps_quotes_escaped; try reflexivity.
    apply replace_quotes_escaped.
  - intros Hq Hn Hr.
    rewrite (replace_all_absent quote_char _ name Hq).
    rewrite (replace_all_absent newline_char _ name Hn).
    by rewrite (replace_all_absent return_char _ name Hr).
Qed.

(** Escaping a name is done piece by piece. *)
Theorem escapeBranchName_append (a b : string) :
  escapeBranchName (a +:+ b) = escapeBranchName a +:+ escapeBranchName b.
Proof. unfold escapeBranchName. by rewrite !replace_all_app. Qed.

(** In a generated clause the text between the quotes of [new Error('...')]
    has each of its single quotes behind a backslash. *)
Theorem error_message_quotes_escaped (sv : Services)
    (symbolName : option string) (t : TsType) :
  ∃ text,
    caseClause sv symbolName t =
      "case " +:+ caseTestOf sv symbolName t
        +:+ ": { throw new Error('" +:+ text +:+ "') }"
    ∧ text = "Not implemented yet: "
               +:+ replace_all quote_char "\'" (caseTestOf sv symbolName t)
               +:+ " case"
    ∧ quotes_escaped text = true.
Proof.
  eexists. split; [|split; [reflexivity|]].
  - rewrite caseClause_text. by rewrite !append_assoc.
  - unfold quotes_escaped.
    change ("Not implemented yet: "
              +:+ replace_all quote_char "\'" (caseTestOf sv symbolName t)
              +:+ " case")
      with (replace_all quote_char "\'" "Not implemented yet: "
              +:+ replace_all quote_char "\'" (caseTestOf sv symbolName t)
              +:+ replace_all quote_char "\'" " case").
    rewrite <- !replace_all_app. apply replace_quotes_escaped.
Qed.

(** * Properties of no-require-imports *)

Lemma listener_reports (v : NoRequireImports.Visited)
    (rep : NoRequireImports.ReportDescriptor) :
  rep ∈ NoRequireImports.listener v ↔
  ¬ NoRequireImports.user_land v
  ∧ rep = {| NoRequireImports.node := NoRequireImports.visited_node v;
             NoRequireImports.messageId := NoRequireImports.noRequireImports |}.
Proof.
  destruct v as [n findVariable|n]; cbn.
  - unfold NoRequireImports.onRequireCall.
    destruct (findVariable "require") as [[ids]|] eqn:Hfind; cbn.
    + destruct ids as [|i ids]; cbn.
      * rewrite list_elem_of_singleton. split.
        -- intros ->. split; [|done]. intros (var & Hvar & Hids).
           injection Hvar as <-. by apply Hids.
        -- by intros [_ ->].
      * split; [intros H; by apply elem_of_nil in H|].
        intros [Hno _]. exfalso. apply Hno. by eexists.
    + rewrite list_elem_of_singleton. split.
      * intros ->. split; [|done]. by intros (var & Hvar & _).
      * by intros [_ ->].
  - unfold NoRequireImports.onExternalModuleReference.
    rewrite list_elem_of_singleton. split.
    + intros ->. split; [tauto|done].
    + by intros [_ ->].
Qed.

(** A traversal reports exactly the import-equals references and the calls
    of [require] at which [require] is no variable the program declares:
    one declared in any scope around the call keeps it from being
    reported. *)
Theorem lint_reports (vs : list NoRequireImports.Visited)
    (rep : NoRequireImports.ReportDescriptor) :
  rep ∈ NoRequireImports.lint vs ↔
  ∃ v, v ∈ vs
       ∧ ¬ NoRequireImports.user_land v
       ∧ rep = {| NoRequireImports.node := NoRequireImports.visited_node v;
                  NoRequireImports.messageId :=
                    NoRequireImports.noRequireImports |}.
Proof.
  unfold NoRequireImports.lint. induction vs as [|v vs IH]; cbn.
  - split; [intros H; by apply elem_of_nil in H|].
    intros (v & Hin & _). by apply elem_of_nil in Hin.
  - rewrite elem_of_app, IH, listener_reports. split.
    + intros [[Hno ->]|(v' & Hin & Hno & ->)].
      * exists v. split; [left|done].
      * exists v'. split; [by right|done].
    + intros (v' & Hin & Hno & ->).
      apply elem_of_cons in Hin as [->|Hin]; [by left|].
      right. by exists v'.
Qed.

(** The reports of a traversal come in the order of the nodes, at most one
    for a node. *)
Theorem lint_in_order (vs : list NoRequireImports.Visited) :
  sublist (map NoRequireImports.node (NoRequireImports.lint vs))
          (map NoRequireImports.visited_node vs).
Proof.
  unfold NoRequireImports.lint. induction vs as [|v vs IH]; [done|].
  cbn [map concat]. rewrite map_app.
  assert (Hv : NoRequireImports.listener v = []
               ∨ NoRequireImports.listener v =
                   [ {| NoRequireImports.node :=
                          NoRequireImports.visited_node v;
                        NoRequireImports.messageId :=
                          NoRequireImports.noRequireImports |} ]).
  { destruct v as [n findVariable|n]; cbn; [|by right].
    unfold NoRequireImports.onRequireCall.
    destruct (findVariable "require") as [[ids]|]; cbn; [|by right].
    destruct ids; cbn; [by right|by left]. }
  destruct Hv as [->| ->]; cbn.
  - by apply sublist_cons.
  - by apply sublist_skip.
Qed.

(** * The further properties at the sample program *)

Lemma option_ignored_on_union_witness :
  isUnion demo (discriminantTypeOf demo switch_two_of_three) = true
  ∧ visit demo true switch_two_of_three = visit demo false switch_two_of_three.
Proof.
  split; [reflexivity|].
  exact (option_ignored_on_union demo true false switch_two_of_three eq_refl).
Defined.

Lemma extra_clause_shrinks_missing_witness :
  hasDefault ([case_of 102 4] ++ case_of 104 4 :: []) = false
  ∧ sublist (missingBranchTypesOf demo 1 [case_of 102 4; case_of 104 4])
            (missingBranchTypesOf demo 1 [case_of 102 4]).
Proof.
  split; [reflexivity|].
  exact (extra_clause_shrinks_missing demo 1 [case_of 102 4] (case_of 104 4)
           [] eq_refl).
Defined.

Lemma handling_missing_silences_witness :
  isUnion demo (discriminantTypeOf demo switch_two_of_three) = true
  ∧ hasDefault (cases switch_two_of_three ++ [case_of 104 4]) = false
  ∧ reports (visit demo false
               (with_cases switch_two_of_three
                  (cases switch_two_of_three ++ [case_of 104 4]))) = [].
Proof.
  split; [reflexivity|]. split; [reflexivity|].
  apply (handling_missing_silences demo false switch_two_of_three
           [case_of 104 4] eq_refl eq_refl).
  intros t Ht. apply list_elem_of_singleton in Ht as ->.
  exists (case_of 104 4). split; [apply list_elem_of_here|].
  by exists 104%positive.
Defined.
